(** * The generation job pipeline of the Anime platform back end

    A shallow embedding of [backend/src/services/queueService.ts] and of
    [utils/redis.ts], together with the collaborators they drive: the
    Prisma tables [generatedOutput] and [usageLog], the socket.io server
    [io], the axios client talking to the AI service, and the BullMQ
    queues and workers.

    The program is a sequence of awaited effects; it is embedded as
    state passing over a [World] (database, sockets, log, clock, AI
    service) with promise rejection as the error channel. *)

From stdpp Require Import base strings gmap list pretty.
From Stdlib Require Import ZArith Lia.

Local Open Scope string_scope.
Local Open Scope list_scope.

(** ** Values *)

(** [style: any], [metadata: any] and the socket payloads are JSON values. *)
#[local] Set Warnings "-register-all".
Inductive Json :=
| JNull
| JString (s : string)
| JNumber (n : Z)
| JObject (fields : list (string * Json)).
#[local] Set Warnings "register-all".

(** A JavaScript [Error]; only [err.message] is read by the program. *)
Record Error := { message : string }.

(** ** prisma/schema.prisma *)

Inductive ContentType := IMAGE | VIDEO.

Inductive GenerationStatus := PENDING | PROCESSING | COMPLETED | FAILED.

Definition ContentType_name (t : ContentType) : string :=
  match t with IMAGE => "IMAGE" | VIDEO => "VIDEO" end.

(** model GeneratedOutput (the timestamps and relations are not touched
    by the pipeline and are left out). *)
Record GeneratedOutput := {
  go_id : string;
  go_userId : string;
  go_promptId : string;
  go_type : ContentType;
  go_status : GenerationStatus;
  go_filePath : option string;
  go_thumbnailPath : option string;
  go_metadata : option Json;
  go_processingTime : option Z;
  go_errorMessage : option string;
}.

(** model UsageLog, with the columns [logUsage] fills; [resourceType],
    [tokensUsed] and [cost] stay null. *)
Record UsageLog := {
  ul_userId : string;
  ul_action : string;
  ul_processingTime : option Z;
  ul_metadata : option Json;
}.

(** The [data] argument of [prisma.generatedOutput.update]: a column that
    is absent from the object literal is left as it is. *)
Record GeneratedOutputUpdateInput := {
  set_status : option GenerationStatus;
  set_filePath : option string;
  set_thumbnailPath : option string;
  set_processingTime : option Z;
  set_metadata : option Json;
  set_errorMessage : option string;
}.

Definition assign {A} (new : option A) (old : option A) : option A :=
  match new with Some a => Some a | None => old end.

Definition apply_update (d : GeneratedOutputUpdateInput) (r : GeneratedOutput)
  : GeneratedOutput :=
  {| go_id := go_id r;
     go_userId := go_userId r;
     go_promptId := go_promptId r;
     go_type := go_type r;
     go_status := default (go_status r) (set_status d);
     go_filePath := assign (set_filePath d) (go_filePath r);
     go_thumbnailPath := assign (set_thumbnailPath d) (go_thumbnailPath r);
     go_metadata := assign (set_metadata d) (go_metadata r);
     go_processingTime := assign (set_processingTime d) (go_processingTime r);
     go_errorMessage := assign (set_errorMessage d) (go_errorMessage r) |}.

(** ** The AI service behind axios *)

Record AxiosRequest := {
  url : string;
  body : Json;
  timeout : Z;  (* milliseconds *)
}.

(** [response.data] of a 2xx answer: {filePath, thumbnailPath, metadata}. *)
Record GenerationResponse := {
  filePath : string;
  thumbnailPath : string;
  metadata : Json;
}.

(** What the service does with one request: answer 2xx after [latency]
    ms, fail after [latency] ms (an error status or a network error, with
    the message axios puts in the Error), or never answer. *)
Inductive Behaviour :=
| Responds (latency : Z) (data : GenerationResponse)
| Fails (latency : Z) (reason : string)
| Hangs.

(** ** socket.io and the logger *)

Record Emitted := {
  room : string;
  event : string;
  payload : Json;
}.

Inductive Level := INFO | ERROR.

Record LogLine := {
  level : Level;
  text : string;
  detail : option Error;
}.

(** ** The world the pipeline acts on *)

Record World := {
  generatedOutput : gmap string GeneratedOutput;  (* prisma.generatedOutput *)
  usageLog : list UsageLog;                       (* prisma.usageLog, oldest first *)
  sent : list Emitted;                            (* io emits, oldest first *)
  logged : list LogLine;                          (* logger, oldest first *)
  now : Z;                                        (* Date.now() *)
  AI_SERVICE_URL : string;                        (* process.env.AI_SERVICE_URL *)
  service : nat -> Behaviour;                     (* the AI service, per call number *)
  requests : list AxiosRequest;                   (* calls made so far, oldest first *)
}.

Definition with_generatedOutput (m : gmap string GeneratedOutput) (w : World) :=
  {| generatedOutput := m; usageLog := usageLog w; sent := sent w;
     logged := logged w; now := now w; AI_SERVICE_URL := AI_SERVICE_URL w;
     service := service w; requests := requests w |}.

Definition with_usageLog (l : list UsageLog) (w : World) :=
  {| generatedOutput := generatedOutput w; usageLog := l; sent := sent w;
     logged := logged w; now := now w; AI_SERVICE_URL := AI_SERVICE_URL w;
     service := service w; requests := requests w |}.

Definition with_sent (l : list Emitted) (w : World) :=
  {| generatedOutput := generatedOutput w; usageLog := usageLog w; sent := l;
     logged := logged w; now := now w; AI_SERVICE_URL := AI_SERVICE_URL w;
     service := service w; requests := requests w |}.

Definition with_logged (l : list LogLine) (w : World) :=
  {| generatedOutput := generatedOutput w; usageLog := usageLog w; sent := sent w;
     logged := l; now := now w; AI_SERVICE_URL := AI_SERVICE_URL w;
     service := service w; requests := requests w |}.

Definition with_call (r : AxiosRequest) (elapsed : Z) (w : World) :=
  {| generatedOutput := generatedOutput w; usageLog := usageLog w; sent := sent w;
     logged := logged w; now := (now w + elapsed)%Z;
     AI_SERVICE_URL := AI_SERVICE_URL w;
     service := service w; requests := requests w ++ [r] |}.

Definition with_delay (ms : Z) (w : World) :=
  {| generatedOutput := generatedOutput w; usageLog := usageLog w; sent := sent w;
     logged := logged w; now := (now w + ms)%Z;
     AI_SERVICE_URL := AI_SERVICE_URL w;
     service := service w; requests := requests w |}.

(** ** Promises *)

Inductive Settled (A : Type) :=
| Resolved (a : A)
| Rejected (e : Error).
Arguments Resolved {A} a.
Arguments Rejected {A} e.

(** A function that may throw, over a state [S]: it runs and settles. *)
Definition Eff (S A : Type) : Type := S -> S * Settled A.

(** An async function: it runs on the world and settles. *)
Definition Async (A : Type) : Type := Eff World A.

Definition resolve {S A} (a : A) : Eff S A := fun s => (s, Resolved a).

Definition throw {S A} (e : Error) : Eff S A := fun s => (s, Rejected e).

Definition await {S A B} (p : Eff S A) (k : A -> Eff S B) : Eff S B :=
  fun s =>
    match p s with
    | (s', Resolved a) => k a s'
    | (s', Rejected e) => (s', Rejected e)
    end.

Definition try_catch {S A} (block : Eff S A) (handler : Error -> Eff S A) : Eff S A :=
  fun s =>
    match block s with
    | (s', Resolved a) => (s', Resolved a)
    | (s', Rejected e) => handler e s'
    end.

Notation "'do' x <- p ; k" := (await p (fun x => k))
  (at level 10, x name, p at level 100, k at level 200).
Notation "p ;; k" := (await p (fun _ => k))
  (at level 100, k at level 200, right associativity).

(** ** Collaborators *)

Module Prisma.

(** [prisma.generatedOutput.update({ where: { id }, data })]: rejects
    when no row has this id, else rewrites the row. *)
Definition generatedOutput_update (id : string) (d : GeneratedOutputUpdateInput)
  : Async GeneratedOutput :=
  fun w =>
    match generatedOutput w !! id with
    | None => (w, Rejected {| message := "Record to update not found." |})
    | Some r =>
        let r' := apply_update d r in
        (with_generatedOutput (<[id := r']> (generatedOutput w)) w, Resolved r')
    end.

(** [prisma.usageLog.create({ data })]: appends a row. *)
Definition usageLog_create (row : UsageLog) : Async UsageLog :=
  fun w => (with_usageLog (usageLog w ++ [row]) w, Resolved row).

End Prisma.

Module Logger.

Definition info (msg : string) : Async unit :=
  fun w => (with_logged (logged w ++ [{| level := INFO; text := msg; detail := None |}]) w,
            Resolved tt).

Definition error (msg : string) (err : Error) : Async unit :=
  fun w => (with_logged (logged w ++ [{| level := ERROR; text := msg; detail := Some err |}]) w,
            Resolved tt).

End Logger.

Module Io.

(** [io.to(room).emit(event, data)]: fire and forget. *)
Definition to_emit (rm : string) (ev : string) (d : Json) : Async unit :=
  fun w => (with_sent (sent w ++ [{| room := rm; event := ev; payload := d |}]) w,
            Resolved tt).

End Io.

Module Axios.

Definition timeout_error (ms : Z) : Error :=
  {| message := "timeout of " +:+ pretty ms +:+ "ms exceeded" |}.

(** How a request settles under a timeout of [ms]: the time waited and
    the result. The answer counts when it comes before the timeout;
    otherwise the request is aborted after [ms] with the timeout error. *)
Definition settle (ms : Z) (b : Behaviour) : Z * Settled GenerationResponse :=
  match b with
  | Responds t d =>
      if (t <? ms)%Z then (t, Resolved d) else (ms, Rejected (timeout_error ms))
  | Fails t reason =>
      if (t <? ms)%Z then (t, Rejected {| message := reason |})
      else (ms, Rejected (timeout_error ms))
  | Hangs => (ms, Rejected (timeout_error ms))
  end.

(** [axios.post(url, body, { timeout })]: the call is sent to the
    service, and the clock moves by the time waited. *)
Definition post (u : string) (b : Json) (ms : Z) : Async GenerationResponse :=
  fun w =>
    let r := {| url := u; body := b; timeout := ms |} in
    let (waited, result) := settle ms (service w (length (requests w))) in
    (with_call r waited w, result).

End Axios.

Definition Date_now : Async Z := fun w => (w, Resolved (now w)).

Definition process_env_AI_SERVICE_URL : Async string :=
  fun w => (w, Resolved (AI_SERVICE_URL w)).

(** [Math.round(n / d)] for integers [n] and [d > 0]: the nearest integer,
    a half rounding up. *)
Definition Math_round_div (n d : Z) : Z := ((2 * n + d) / (2 * d))%Z.

(** ** queueService.ts: the job payload *)

Record GenerationJobData := {
  userId : string;
  promptId : string;
  outputId : string;
  type : ContentType;
  prompt : string;
  style : Json;
  audioTrackId : option string;
}.

(** ** utils/redis.ts: the connection handle *)

(** [new Redis(url, { retryDelayOnFailover, maxRetriesPerRequest, lazyConnect })] *)
Record Redis := {
  redis_url : string;
  retryDelayOnFailover : Z;
  maxRetriesPerRequest : Z;
  lazyConnect : bool;
}.

(** ** BullMQ

    The part of the library the service uses, after the library's
    documentation: [Queue.add] with the queue's [defaultJobOptions],
    priorities (a lower number is served first), a [Worker] with a
    [concurrency], attempts with backoff, and the worker's [completed] and
    [failed] events. The jobs carry [GenerationJobData]. *)

Module BullMQ.

Record Backoff := { backoff_type : string; delay : Z }.

Record JobsOptions := {
  priority : option Z;
  attempts : option nat;
  backoff : option Backoff;
  removeOnComplete : option nat;
  removeOnFail : option nat;
}.

(** [{ ...defaults, ...opts }] *)
Definition spread (defaults opts : JobsOptions) : JobsOptions :=
  {| priority := assign (priority opts) (priority defaults);
     attempts := assign (attempts opts) (attempts defaults);
     backoff := assign (backoff opts) (backoff defaults);
     removeOnComplete := assign (removeOnComplete opts) (removeOnComplete defaults);
     removeOnFail := assign (removeOnFail opts) (removeOnFail defaults) |}.

Record Job := {
  id : nat;                  (* the queue's counter, printed in decimal *)
  name : string;
  data : GenerationJobData;
  opts : JobsOptions;
  attemptsMade : nat;
}.

(** The keys of one queue in Redis. [wait] is in dispatch order. *)
Record Store := {
  counter : nat;
  wait : list Job;
  delayed : list Job;
  active : list Job;
  completed : list Job;      (* newest first *)
  failed : list Job;         (* newest first *)
}.

Definition empty_store : Store :=
  {| counter := 0; wait := []; delayed := []; active := [];
     completed := []; failed := [] |}.

(** [new Queue(name, { connection, defaultJobOptions })] *)
Record Queue := {
  queue_name : string;
  queue_connection : Redis;
  defaultJobOptions : JobsOptions;
}.

(** [new Worker(name, processor, { connection, concurrency })] and the
    listeners registered with [worker.on]. *)
Record Worker := {
  worker_name : string;
  processor : Job -> Async unit;
  worker_connection : Redis;
  concurrency : nat;
  on_completed : list (Job -> Async unit);
  on_failed : list (option Job -> Error -> Async unit);
}.

(** A lower number is a higher priority; a job without priority goes
    before all that have one. *)
Definition rank (j : Job) : Z := default 0%Z (priority (opts j)).

(** A job enters the waiting jobs behind those of the same or a higher
    priority. *)
Fixpoint enqueue (j : Job) (l : list Job) : list Job :=
  match l with
  | [] => [j]
  | k :: l' => if (rank k <=? rank j)%Z then k :: enqueue j l' else j :: l
  end.

(** [queue.add(name, data, opts)] *)
Definition Queue_add (q : Queue) (nm : string) (d : GenerationJobData)
    (o : JobsOptions) : Eff (gmap string Store) Job :=
  fun redis =>
    let st := default empty_store (redis !! queue_name q) in
    let j := {| id := S (counter st); name := nm; data := d;
                opts := spread (defaultJobOptions q) o; attemptsMade := 0 |} in
    let st' := {| counter := S (counter st); wait := enqueue j (wait st);
                  delayed := delayed st; active := active st;
                  completed := completed st; failed := failed st |} in
    (<[queue_name q := st']> redis, Resolved j).

(** The built-in strategies: the delay before the retry that follows
    the attempt number [n]. *)
Definition backoff_delay (o : JobsOptions) (n : nat) : Z :=
  match backoff o with
  | Some b =>
      if String.eqb (backoff_type b) "exponential"
      then (2 ^ (Z.of_nat n - 1) * delay b)%Z
      else if String.eqb (backoff_type b) "fixed" then delay b
      else 0%Z
  | None => 0%Z
  end.

(** How an attempt of a job ends. *)
Inductive Outcome :=
| Completed (j : Job)
| Retrying (j : Job) (err : Error) (after : Z)
| Failed (j : Job) (err : Error).

Definition attempted (j : Job) : Job :=
  {| id := id j; name := name j; data := data j; opts := opts j;
     attemptsMade := S (attemptsMade j) |}.

(** [emitter.emit]: the listeners run in order of registration. The
    emitter does not await the promise an async listener returns, so that
    a rejection of it does not reach the worker. *)
Definition emit_completed (listeners : list (Job -> Async unit)) (j : Job)
    (w : World) : World :=
  foldl (fun w' l => fst (l j w')) w listeners.

Definition emit_failed (listeners : list (option Job -> Error -> Async unit))
    (j : option Job) (err : Error) (w : World) : World :=
  foldl (fun w' l => fst (l j err w')) w listeners.

(** One attempt: the worker calls the processor. When it resolves the
    job is completed and [completed] is emitted. When it throws, the job
    is moved to failed, which schedules the retry as long as
    [attemptsMade < opts.attempts], and [failed] is emitted with the
    job and the error, whether a retry follows or not. *)
Definition processJob (wk : Worker) (j : Job) (w : World) : World * Outcome :=
  match processor wk j w with
  | (w1, Resolved _) =>
      let j' := attempted j in
      (emit_completed (on_completed wk) j' w1, Completed j')
  | (w1, Rejected err) =>
      let j' := attempted j in
      let w2 := emit_failed (on_failed wk) (Some j') err w1 in
      match attempts (opts j') with
      | Some n =>
          if (attemptsMade j' <? n)%nat
          then (w2, Retrying j' err (backoff_delay (opts j') (attemptsMade j')))
          else (w2, Failed j' err)
      | None => (w2, Failed j' err)
      end
  end.

(** The job's life when the worker has nothing else to do: attempts,
    each after the backoff delay of the one before, until one
    completes or the job is failed for good. [fuel] bounds the number
    of retries. *)
Fixpoint run (wk : Worker) (fuel : nat) (j : Job) (w : World) : World * Outcome :=
  match processJob wk j w with
  | (w', Retrying j' err ms) =>
      match fuel with
      | 0 => (w', Retrying j' err ms)
      | S fuel' => run wk fuel' j' (with_delay ms w')
      end
  | settled => settled
  end.

Definition runJob (wk : Worker) (j : Job) : World -> World * Outcome :=
  run wk (default 0 (attempts (opts j))) j.

(** *** The queue in Redis *)

Definition remove (j : Job) (l : list Job) : list Job :=
  filter (fun k => id k <> id j) l.

(** [removeOnComplete: n] and [removeOnFail: n] keep the [n] newest. *)
Definition keep (n : option nat) (l : list Job) : list Job :=
  match n with Some n => take n l | None => l end.

(** A worker with a free slot takes the first waiting job. *)
Definition getNextJob (wk : Worker) (st : Store) : option (Job * Store) :=
  if (length (active st) <? concurrency wk)%nat then
    match wait st with
    | j :: rest =>
        Some (j, {| counter := counter st; wait := rest; delayed := delayed st;
                    active := active st ++ [j];
                    completed := completed st; failed := failed st |})
    | [] => None
    end
  else None.

Definition moveToFinished (o : Outcome) (st : Store) : Store :=
  match o with
  | Completed j =>
      {| counter := counter st; wait := wait st; delayed := delayed st;
         active := remove j (active st);
         completed := keep (removeOnComplete (opts j)) (j :: completed st);
         failed := failed st |}
  | Retrying j _ _ =>
      {| counter := counter st; wait := wait st; delayed := delayed st ++ [j];
         active := remove j (active st);
         completed := completed st; failed := failed st |}
  | Failed j _ =>
      {| counter := counter st; wait := wait st; delayed := delayed st;
         active := remove j (active st);
         completed := completed st;
         failed := keep (removeOnFail (opts j)) (j :: failed st) |}
  end.

(** A delayed job whose delay is over waits again. *)
Definition promote (j : Job) (st : Store) : Store :=
  {| counter := counter st; wait := enqueue j (wait st);
     delayed := remove j (delayed st); active := active st;
     completed := completed st; failed := failed st |}.

Definition set_store (wk : Worker) (st : Store) (r : gmap string Store)
  : gmap string Store :=
  <[worker_name wk := st]> r.

(** What a running worker does, one move at a time, to its queue and to
    the world: take a job, run an attempt of a job it holds, or see a
    delayed job wait again. *)
Inductive Move :=
| Fetch
| Process (jobId : nat)
| Promote (jobId : nat).

Definition has_id (n : nat) (j : Job) : bool := (id j =? n)%nat.

Definition worker_move (wk : Worker) (m : Move) (rw : gmap string Store * World)
  : option (gmap string Store * World) :=
  let (r, w) := rw in
  match r !! worker_name wk with
  | None => None
  | Some st =>
      match m with
      | Fetch =>
          match getNextJob wk st with
          | Some (_, st') => Some (set_store wk st' r, w)
          | None => None
          end
      | Process n =>
          match List.find (has_id n) (active st) with
          | Some j =>
              let (w', o) := processJob wk j w in
              Some (set_store wk (moveToFinished o st) r, w')
          | None => None
          end
      | Promote n =>
          match List.find (has_id n) (delayed st) with
          | Some j => Some (set_store wk (promote j st) r, w)
          | None => None
          end
      end
  end.

End BullMQ.

(** ** The module-level variables *)

Record Services := {
  redis : option Redis;                     (* redis.ts: let redis *)
  imageQueue : option BullMQ.Queue;         (* queueService.ts: let imageQueue *)
  videoQueue : option BullMQ.Queue;         (* queueService.ts: let videoQueue *)
  workers : list BullMQ.Worker;             (* the workers setupQueues started *)
  broker : gmap string BullMQ.Store;        (* what the queues hold in Redis *)
}.

(** Nothing is set up yet. *)
Definition boot : Services :=
  {| redis := None; imageQueue := None; videoQueue := None; workers := [];
     broker := ∅ |}.

Definition set_redis (r : Redis) : Eff Services unit :=
  fun s => ({| redis := Some r; imageQueue := imageQueue s; videoQueue := videoQueue s;
               workers := workers s; broker := broker s |}, Resolved tt).

Definition set_imageQueue (q : BullMQ.Queue) : Eff Services unit :=
  fun s => ({| redis := redis s; imageQueue := Some q; videoQueue := videoQueue s;
               workers := workers s; broker := broker s |}, Resolved tt).

Definition set_videoQueue (q : BullMQ.Queue) : Eff Services unit :=
  fun s => ({| redis := redis s; imageQueue := imageQueue s; videoQueue := Some q;
               workers := workers s; broker := broker s |}, Resolved tt).

Definition start_worker (wk : BullMQ.Worker) : Eff Services unit :=
  fun s => ({| redis := redis s; imageQueue := imageQueue s; videoQueue := videoQueue s;
               workers := workers s ++ [wk]; broker := broker s |}, Resolved tt).

Definition with_broker (b : gmap string BullMQ.Store) (s : Services) : Services :=
  {| redis := redis s; imageQueue := imageQueue s; videoQueue := videoQueue s;
     workers := workers s; broker := b |}.

(** An effect on the queues' content, seen from the module. *)
Definition on_broker {A} (p : Eff (gmap string BullMQ.Store) A) : Eff Services A :=
  fun s => let (b, r) := p (broker s) in (with_broker b s, r).

Definition in_services {A} (p : Eff Services A) : Eff (Services * World) A :=
  fun sw => let (s, r) := p (fst sw) in ((s, snd sw), r).

Definition in_world {A} (p : Async A) : Eff (Services * World) A :=
  fun sw => let (w, r) := p (snd sw) in ((fst sw, w), r).

(** ** utils/redis.ts *)

(** [setupRedis]: [REDIS_URL] is the environment variable, and
    [connect] is how [redis.connect()] settles. *)
Definition setupRedis (REDIS_URL : option string) (connect : Settled unit)
  : Eff (Services * World) Redis :=
  try_catch
    (let r := {| redis_url := default "redis://localhost:6379" REDIS_URL;
                 retryDelayOnFailover := 100; maxRetriesPerRequest := 3;
                 lazyConnect := true |} in
     in_services (set_redis r);;
     (fun sw => (sw, connect));;
     resolve r)
    (fun error =>
       in_world (Logger.error "❌ Redis setup failed:" error);;
       throw error).

Definition getRedis : Eff Services Redis :=
  fun s =>
    match redis s with
    | None => throw {| message := "Redis not initialized. Call setupRedis() first." |} s
    | Some r => resolve r s
    end.

(** ** services/queueService.ts *)

Definition notifyUser (userId : string) (event : string) (data : Json) : Async unit :=
  Io.to_emit ("user-" +:+ userId) event data.

Definition logUsage (userId : string) (action : string) (processingTime : Z)
    (metadata : Json) : Async unit :=
  Prisma.usageLog_create
    {| ul_userId := userId; ul_action := action;
       ul_processingTime := Some processingTime;
       ul_metadata := Some metadata |};;
  resolve tt.

Definition updateGenerationStatus (outputId : string) (status : GenerationStatus)
  : Async unit :=
  Prisma.generatedOutput_update outputId
    {| set_status := Some status; set_filePath := None; set_thumbnailPath := None;
       set_processingTime := None; set_metadata := None; set_errorMessage := None |};;
  resolve tt.

Definition handleJobFailure (jobData : GenerationJobData) (errorMessage : string)
  : Async unit :=
  Prisma.generatedOutput_update (outputId jobData)
    {| set_status := Some FAILED; set_filePath := None; set_thumbnailPath := None;
       set_processingTime := None; set_metadata := None;
       set_errorMessage := Some errorMessage |};;
  notifyUser (userId jobData) "generation-failed"
    (JObject [("outputId", JString (outputId jobData));
              ("type", JString (ContentType_name (type jobData)));
              ("error", JString errorMessage)]).

Definition processImageGeneration (job : BullMQ.Job) : Async unit :=
  let d := BullMQ.data job in
  try_catch
    (updateGenerationStatus (outputId d) PROCESSING;;
     do startTime <- Date_now;
     do base <- process_env_AI_SERVICE_URL;
     do response <- Axios.post (base +:+ "/generate/image")
                      (JObject [("prompt", JString (prompt d));
                                ("style", style d);
                                ("outputId", JString (outputId d))])
                      300000;
     do endTime <- Date_now;
     let processingTime := Math_round_div (endTime - startTime) 1000 in
     Prisma.generatedOutput_update (outputId d)
       {| set_status := Some COMPLETED;
          set_filePath := Some (filePath response);
          set_thumbnailPath := Some (thumbnailPath response);
          set_processingTime := Some processingTime;
          set_metadata := Some (metadata response);
          set_errorMessage := None |};;
     logUsage (userId d) "generate_image" processingTime (metadata response))
    (fun error =>
       Logger.error "Image generation failed:" error;;
       throw error).

(** [audioTrackId] is left out of the JSON body when it is undefined. *)
Definition processVideoGeneration (job : BullMQ.Job) : Async unit :=
  let d := BullMQ.data job in
  try_catch
    (updateGenerationStatus (outputId d) PROCESSING;;
     do startTime <- Date_now;
     do base <- process_env_AI_SERVICE_URL;
     do response <- Axios.post (base +:+ "/generate/video")
                      (JObject ([("prompt", JString (prompt d));
                                 ("style", style d)]
                                ++ match audioTrackId d with
                                   | Some a => [("audioTrackId", JString a)]
                                   | None => []
                                   end
                                ++ [("outputId", JString (outputId d))]))
                      600000;
     do endTime <- Date_now;
     let processingTime := Math_round_div (endTime - startTime) 1000 in
     Prisma.generatedOutput_update (outputId d)
       {| set_status := Some COMPLETED;
          set_filePath := Some (filePath response);
          set_thumbnailPath := Some (thumbnailPath response);
          set_processingTime := Some processingTime;
          set_metadata := Some (metadata response);
          set_errorMessage := None |};;
     logUsage (userId d) "generate_video" processingTime (metadata response))
    (fun error =>
       Logger.error "Video generation failed:" error;;
       throw error).

(** [`${job?.id}`] *)
Definition job_id_text (job : option BullMQ.Job) : string :=
  match job with Some j => pretty (BullMQ.id j) | None => "undefined" end.

(** imageWorker.on('completed', ...) *)
Definition imageWorker_on_completed (job : BullMQ.Job) : Async unit :=
  Logger.info ("Image generation job " +:+ pretty (BullMQ.id job) +:+ " completed");;
  notifyUser (userId (BullMQ.data job)) "generation-complete"
    (JObject [("outputId", JString (outputId (BullMQ.data job)));
              ("type", JString "IMAGE");
              ("status", JString "COMPLETED")]).

(** imageWorker.on('failed', ...) *)
Definition imageWorker_on_failed (job : option BullMQ.Job) (err : Error) : Async unit :=
  Logger.error ("Image generation job " +:+ job_id_text job +:+ " failed:") err;;
  match job with
  | Some j => handleJobFailure (BullMQ.data j) (message err)
  | None => resolve tt
  end.

(** videoWorker.on('completed', ...) *)
Definition videoWorker_on_completed (job : BullMQ.Job) : Async unit :=
  Logger.info ("Video generation job " +:+ pretty (BullMQ.id job) +:+ " completed");;
  notifyUser (userId (BullMQ.data job)) "generation-complete"
    (JObject [("outputId", JString (outputId (BullMQ.data job)));
              ("type", JString "VIDEO");
              ("status", JString "COMPLETED")]).

(** videoWorker.on('failed', ...) *)
Definition videoWorker_on_failed (job : option BullMQ.Job) (err : Error) : Async unit :=
  Logger.error ("Video generation job " +:+ job_id_text job +:+ " failed:") err;;
  match job with
  | Some j => handleJobFailure (BullMQ.data j) (message err)
  | None => resolve tt
  end.

(** The two queues and the two workers [setupQueues] constructs. *)
Definition new_imageQueue (connection : Redis) : BullMQ.Queue :=
  {| BullMQ.queue_name := "image-generation";
     BullMQ.queue_connection := connection;
     BullMQ.defaultJobOptions :=
       {| BullMQ.removeOnComplete := Some 10;
          BullMQ.removeOnFail := Some 20;
          BullMQ.attempts := Some 3;
          BullMQ.backoff :=
            Some {| BullMQ.backoff_type := "exponential"; BullMQ.delay := 2000 |};
          BullMQ.priority := None |} |}.

Definition new_videoQueue (connection : Redis) : BullMQ.Queue :=
  {| BullMQ.queue_name := "video-generation";
     BullMQ.queue_connection := connection;
     BullMQ.defaultJobOptions :=
       {| BullMQ.removeOnComplete := Some 5;
          BullMQ.removeOnFail := Some 10;
          BullMQ.attempts := Some 2;
          BullMQ.backoff :=
            Some {| BullMQ.backoff_type := "exponential"; BullMQ.delay := 5000 |};
          BullMQ.priority := None |} |}.

Definition imageWorker (connection : Redis) : BullMQ.Worker :=
  {| BullMQ.worker_name := "image-generation";
     BullMQ.processor := fun job => processImageGeneration job;
     BullMQ.worker_connection := connection;
     BullMQ.concurrency := 2;
     BullMQ.on_completed := [imageWorker_on_completed];
     BullMQ.on_failed := [imageWorker_on_failed] |}.

Definition videoWorker (connection : Redis) : BullMQ.Worker :=
  {| BullMQ.worker_name := "video-generation";
     BullMQ.processor := fun job => processVideoGeneration job;
     BullMQ.worker_connection := connection;
     BullMQ.concurrency := 1;
     BullMQ.on_completed := [videoWorker_on_completed];
     BullMQ.on_failed := [videoWorker_on_failed] |}.

Definition setupQueues : Eff (Services * World) unit :=
  do redis <- in_services getRedis;
  in_services (set_imageQueue (new_imageQueue redis));;
  in_services (set_videoQueue (new_videoQueue redis));;
  in_services (start_worker (imageWorker redis));;
  in_services (start_worker (videoWorker redis));;
  in_world (Logger.info "✅ Queues and workers set up successfully").

Definition priority_only (p : Z) : BullMQ.JobsOptions :=
  {| BullMQ.priority := Some p; BullMQ.attempts := None; BullMQ.backoff := None;
     BullMQ.removeOnComplete := None; BullMQ.removeOnFail := None |}.

(** Reading a method of an undefined variable. *)
Definition TypeError_undefined (property : string) : Error :=
  {| message := "Cannot read properties of undefined (reading '" +:+ property +:+ "')" |}.

Definition addImageGenerationJob (data : GenerationJobData) : Eff Services BullMQ.Job :=
  fun s =>
    match imageQueue s with
    | None => throw (TypeError_undefined "add") s
    | Some q => on_broker (BullMQ.Queue_add q "generate-image" data (priority_only 10)) s
    end.

Definition addVideoGenerationJob (data : GenerationJobData) : Eff Services BullMQ.Job :=
  fun s =>
    match videoQueue s with
    | None => throw (TypeError_undefined "add") s
    | Some q => on_broker (BullMQ.Queue_add q "generate-video" data (priority_only 5)) s
    end.

(** ** The running server *)

(** index.ts, [startServer]: Redis first, then the queues. *)
Definition startServer (REDIS_URL : option string) (connect : Settled unit)
  : Eff (Services * World) unit :=
  setupRedis REDIS_URL connect;;
  setupQueues.

(** What happens once the server runs: a route enqueues a job, or one of
    the workers moves. *)
Inductive Action :=
| AddImage (data : GenerationJobData)
| AddVideo (data : GenerationJobData)
| Work (worker : nat) (m : BullMQ.Move).

Definition act (a : Action) (sw : Services * World) : option (Services * World) :=
  let (s, w) := sw in
  match a with
  | AddImage d => Some (fst (addImageGenerationJob d s), w)
  | AddVideo d => Some (fst (addVideoGenerationJob d s), w)
  | Work i m =>
      match workers s !! i with
      | Some wk =>
          match BullMQ.worker_move wk m (broker s, w) with
          | Some (b, w') => Some (with_broker b s, w')
          | None => None
          end
      | None => None
      end
  end.

Fixpoint play (l : list Action) (sw : Services * World) : option (Services * World) :=
  match l with
  | [] => Some sw
  | a :: l' =>
      match act a sw with
      | Some sw' => play l' sw'
      | None => None
      end
  end.

(** The states the server can be in after a start from [boot]. *)
Definition reachable (sw : Services * World) : Prop :=
  exists REDIS_URL w0 sw0 l,
    startServer REDIS_URL (Resolved tt) (boot, w0) = (sw0, Resolved tt) /\
    play l sw0 = Some sw.

(** ** Observations used in the statements *)

Definition status_of (id : string) (w : World) : option GenerationStatus :=
  go_status <$> generatedOutput w !! id.




(** The worker, time budget, usage action and service path of a content type. *)
Definition worker_of (t : ContentType) (r : Redis) : BullMQ.Worker :=
  match t with IMAGE => imageWorker r | VIDEO => videoWorker r end.

Definition budget (t : ContentType) : Z :=
  match t with IMAGE => 300000%Z | VIDEO => 600000%Z end.

Definition action_of (t : ContentType) : string :=
  match t with IMAGE => "generate_image" | VIDEO => "generate_video" end.

(** The two notifications. *)
Definition failed_event (d : GenerationJobData) (e : Error) : Emitted :=
  {| room := "user-" +:+ userId d;
     event := "generation-failed";
     payload := JObject [("outputId", JString (outputId d));
                         ("type", JString (ContentType_name (type d)));
                         ("error", JString (message e))] |}.

Definition complete_event (t : ContentType) (d : GenerationJobData) : Emitted :=
  {| room := "user-" +:+ userId d;
     event := "generation-complete";
     payload := JObject [("outputId", JString (outputId d));
                         ("type", JString (ContentType_name t));
                         ("status", JString "COMPLETED")] |}.

(** The row after the failure listener, and after a successful attempt. *)
Definition failed_row (msg : string) (r : GeneratedOutput) : GeneratedOutput :=
  {| go_id := go_id r; go_userId := go_userId r; go_promptId := go_promptId r;
     go_type := go_type r; go_status := FAILED;
     go_filePath := go_filePath r; go_thumbnailPath := go_thumbnailPath r;
     go_metadata := go_metadata r; go_processingTime := go_processingTime r;
     go_errorMessage := Some msg |}.

Definition completed_row (resp : GenerationResponse) (seconds : Z) (r : GeneratedOutput)
  : GeneratedOutput :=
  {| go_id := go_id r; go_userId := go_userId r; go_promptId := go_promptId r;
     go_type := go_type r; go_status := COMPLETED;
     go_filePath := Some (filePath resp);
     go_thumbnailPath := Some (thumbnailPath resp);
     go_metadata := Some (metadata resp);
     go_processingTime := Some seconds;
     go_errorMessage := go_errorMessage r |}.

Definition usage_row (t : ContentType) (d : GenerationJobData)
    (resp : GenerationResponse) (seconds : Z) : UsageLog :=
  {| ul_userId := userId d; ul_action := action_of t;
     ul_processingTime := Some seconds; ul_metadata := Some (metadata resp) |}.

(** How the library settles a job whose attempt threw. *)
Definition after_throw (j : BullMQ.Job) (err : Error) : BullMQ.Outcome :=
  match BullMQ.attempts (BullMQ.opts j) with
  | Some n =>
      if (S (BullMQ.attemptsMade j) <? n)%nat
      then BullMQ.Retrying (BullMQ.attempted j) err
             (BullMQ.backoff_delay (BullMQ.opts j) (S (BullMQ.attemptsMade j)))
      else BullMQ.Failed (BullMQ.attempted j) err
  | None => BullMQ.Failed (BullMQ.attempted j) err
  end.

(** The error with which the call number [i] to the AI service is
    rejected, if it is. *)
Definition rejection (t : ContentType) (svc : nat -> Behaviour) (i : nat)
  : option Error :=
  match snd (Axios.settle (budget t) (svc i)) with
  | Rejected e => Some e
  | Resolved _ => None
  end.

(** The errors of the rejected ones among the [m] calls from number [c] on. *)
Definition rejections (t : ContentType) (svc : nat -> Behaviour) (c m : nat)
  : list Error :=
  omap (rejection t svc) (seq c m).

(** The queue, the constructor and the dispatcher of a content type. *)
Definition queue_of (t : ContentType) (s : Services) : option BullMQ.Queue :=
  match t with IMAGE => imageQueue s | VIDEO => videoQueue s end.

Definition new_queue (t : ContentType) (r : Redis) : BullMQ.Queue :=
  match t with IMAGE => new_imageQueue r | VIDEO => new_videoQueue r end.

Definition add_job (t : ContentType) : GenerationJobData -> Eff Services BullMQ.Job :=
  match t with IMAGE => addImageGenerationJob | VIDEO => addVideoGenerationJob end.

(** The attempts configured for the queue of a content type. *)
Definition configured_attempts (t : ContentType) : nat :=
  match t with IMAGE => 3 | VIDEO => 2 end.

(** ** A concrete server, job and world *)

Definition ex_redis : Redis :=
  {| redis_url := "redis://localhost:6379"; retryDelayOnFailover := 100;
     maxRetriesPerRequest := 3; lazyConnect := true |}.

(** The module variables once [startServer] is through. *)
Definition ex_started : Services :=
  {| redis := Some ex_redis;
     imageQueue := Some (new_imageQueue ex_redis);
     videoQueue := Some (new_videoQueue ex_redis);
     workers := [imageWorker ex_redis; videoWorker ex_redis];
     broker := ∅ |}.

Definition ex_data (out : string) (t : ContentType) : GenerationJobData :=
  {| userId := "u-1"; promptId := "p-1"; outputId := out; type := t;
     prompt := "cat"; style := JObject []; audioTrackId := None |}.

Definition ex_row (out : string) (t : ContentType) (s : GenerationStatus)
  : GeneratedOutput :=
  {| go_id := out; go_userId := "u-1"; go_promptId := "p-1"; go_type := t;
     go_status := s; go_filePath := None; go_thumbnailPath := None;
     go_metadata := None; go_processingTime := None; go_errorMessage := None |}.

Definition ex_response : GenerationResponse :=
  {| filePath := "/f.png"; thumbnailPath := "/t.png";
     metadata := JObject [("w", JNumber 512); ("h", JNumber 512)] |}.

(** A world with the given rows and AI service, and nothing done yet. *)
Definition ex_world (rows : list GeneratedOutput) (svc : nat -> Behaviour) : World :=
  {| generatedOutput := list_to_map ((fun r => (go_id r, r)) <$> rows);
     usageLog := []; sent := []; logged := []; now := 0;
     AI_SERVICE_URL := "http://ai-service:8000";
     service := svc; requests := [] |}.

(** AI services: one that never answers, one that fails the first call
    and answers the later ones after 2.5 s, one that always answers. *)
Definition always_hangs : nat -> Behaviour := fun _ => Hangs.

Definition fails_once : nat -> Behaviour :=
  fun i =>
    match i with
    | 0 => Fails 1200 "Request failed with status code 500"
    | _ => Responds 2500 ex_response
    end.

Definition always_answers : nat -> Behaviour := fun _ => Responds 2500 ex_response.

(** The job [addImageGenerationJob (ex_data "out-1" IMAGE)] creates on
    [ex_started]. *)
Definition ex_image_job : BullMQ.Job :=
  {| BullMQ.id := 1; BullMQ.name := "generate-image";
     BullMQ.data := ex_data "out-1" IMAGE;
     BullMQ.opts :=
       {| BullMQ.priority := Some 10%Z; BullMQ.attempts := Some 3;
          BullMQ.backoff :=
            Some {| BullMQ.backoff_type := "exponential"; BullMQ.delay := 2000 |};
          BullMQ.removeOnComplete := Some 10; BullMQ.removeOnFail := Some 20 |};
     BullMQ.attemptsMade := 0 |}.

(** The job [addImageGenerationJob] creates on [ex_started] from data
    that say VIDEO. *)
Definition ex_mislabelled_job : BullMQ.Job :=
  {| BullMQ.id := 1; BullMQ.name := "generate-image";
     BullMQ.data := ex_data "out-1" VIDEO;
     BullMQ.opts := BullMQ.opts ex_image_job;
     BullMQ.attemptsMade := 0 |}.

(** The jobs of a queue that are in a given state, by id. *)
Definition ids_in (f : BullMQ.Store -> list BullMQ.Job) (queue : string)
    (sw : Services * World) : list nat :=
  match broker (fst sw) !! queue with
  | Some st => BullMQ.id <$> f st
  | None => []
  end.

(** The active jobs of a queue are at most [c]. *)
Definition within (c : nat) (queue : string) (b : gmap string BullMQ.Store) : Prop :=
  forall st, b !! queue = Some st -> length (BullMQ.active st) <= c.

(** A busy image worker: two image jobs are enqueued and taken by the
    image worker; then an image job and a video job are enqueued at the
    same time; the video worker takes the video job and completes it. *)
Definition ex_busy_schedule : list Action :=
  [AddImage (ex_data "out-1" IMAGE);
   AddImage (ex_data "out-2" IMAGE);
   Work 0 BullMQ.Fetch;
   Work 0 BullMQ.Fetch;
   AddImage (ex_data "out-3" IMAGE);
   AddVideo (ex_data "out-4" VIDEO);
   Work 1 BullMQ.Fetch;
   Work 1 (BullMQ.Process 1)].

Definition ex_busy_world : World :=
  ex_world [ex_row "out-1" IMAGE PENDING; ex_row "out-2" IMAGE PENDING;
            ex_row "out-3" IMAGE PENDING; ex_row "out-4" VIDEO PENDING]
    always_answers.

(** What holds of the server in every state it reaches. *)
Definition server_inv (s : Services) : Prop :=
  exists r,
    redis s = Some r /\
    imageQueue s = Some (new_imageQueue r) /\
    videoQueue s = Some (new_videoQueue r) /\
    workers s = [imageWorker r; videoWorker r] /\
    within 2 "image-generation" (broker s) /\
    within 1 "video-generation" (broker s).

(** The jobs a queue holds for processing: waiting, delayed or active,
    and their ids. *)
Definition in_queue (st : BullMQ.Store) : list BullMQ.Job :=
  BullMQ.wait st ++ BullMQ.delayed st ++ BullMQ.active st.

Definition held (st : BullMQ.Store) : list nat :=
  BullMQ.id <$> in_queue st.

(** No job is held twice, and every id was handed out by the counter. *)
Definition store_ok (st : BullMQ.Store) : Prop :=
  NoDup (held st) /\ Forall (fun n => n <= BullMQ.counter st) (held st).

Definition broker_ok (b : gmap string BullMQ.Store) : Prop :=
  forall queue st, b !! queue = Some st -> store_ok st.

Definition outcome_job (o : BullMQ.Outcome) : BullMQ.Job :=
  match o with
  | BullMQ.Completed j => j
  | BullMQ.Retrying j _ _ => j
  | BullMQ.Failed j _ => j
  end.

(** The server after [startServer], on [ex_busy_world]. *)
Definition ex_start : Services * World :=
  fst (startServer None (Resolved tt) (boot, ex_busy_world)).

(** Three image jobs are enqueued and the image worker takes two. *)
Definition ex_saturating_schedule : list Action :=
  [AddImage (ex_data "out-1" IMAGE);
   AddImage (ex_data "out-2" IMAGE);
   AddImage (ex_data "out-3" IMAGE);
   Work 0 BullMQ.Fetch;
   Work 0 BullMQ.Fetch].

Definition ex_saturated : Services * World :=
  default ex_start (play ex_saturating_schedule ex_start).

(** The state [ex_busy_schedule] leads to. *)
Definition ex_busy : Services * World :=
  default ex_start (play ex_busy_schedule ex_start).

(** ** utils/database.ts *)

(** [connectDatabase]: [connect] is how [prisma.$connect()] settles. *)
Definition connectDatabase (connect : Settled unit) : Async unit :=
  try_catch
    ((fun w => (w, connect));;
     Logger.info "✅ Database connected successfully")
    (fun error =>
       Logger.error "❌ Database connection failed:" error;;
       throw error).

(** ** index.ts: the start of the server *)

(** [process.env.PORT || 3001]: an unset or empty variable gives 3001. *)
Definition PORT_or_default (PORT : option string) : string :=
  match PORT with
  | Some p => if String.eqb p "" then "3001" else p
  | None => "3001"
  end.

(** [server.listen(PORT, callback)]: the callback logs three lines. *)
Definition server_listen (port : string) : Async unit :=
  Logger.info ("ğŸš€ Server running on port " +:+ port);;
  Logger.info ("ğŸ“š API Documentation: http://localhost:" +:+ port +:+ "/api/docs");;
  Logger.info ("ğŸ” Health Check: http://localhost:" +:+ port +:+ "/api/health").

(** How [startServer] leaves the process. *)
Inductive Started :=
| Listening (port : string)
| Exited (code : Z).

(** [startServer] in full: the database is connected first, then
    Redis and the queues are set up, then the server listens. An error
    of any step is logged and ends the process with code 1. [db] and
    [connect] are how [prisma.$connect()] and [redis.connect()] settle. *)
Definition startServer_or_exit (PORT REDIS_URL : option string)
    (db connect : Settled unit) (sw : Services * World)
  : (Services * World) * Started :=
  let port := PORT_or_default PORT in
  match (in_world (connectDatabase db);;
         startServer REDIS_URL connect;;
         in_world (server_listen port)) sw with
  | (sw', Resolved _) => (sw', Listening port)
  | (sw', Rejected error) =>
      (fst (in_world (Logger.error "Failed to start server:" error) sw'), Exited 1)
  end.

(** ** Observations used in the further statements *)

(** The options of a job as the dispatcher of a content type enqueues it:
    the defaults of the queue and the priority. *)
Definition job_options (t : ContentType) : BullMQ.JobsOptions :=
  match t with
  | IMAGE =>
      {| BullMQ.priority := Some 10%Z; BullMQ.attempts := Some 3;
         BullMQ.backoff :=
           Some {| BullMQ.backoff_type := "exponential"; BullMQ.delay := 2000 |};
         BullMQ.removeOnComplete := Some 10; BullMQ.removeOnFail := Some 20 |}
  | VIDEO =>
      {| BullMQ.priority := Some 5%Z; BullMQ.attempts := Some 2;
         BullMQ.backoff :=
           Some {| BullMQ.backoff_type := "exponential"; BullMQ.delay := 5000 |};
         BullMQ.removeOnComplete := Some 5; BullMQ.removeOnFail := Some 10 |}
  end.



(** The error message a row holds after failures with the errors [errs],
    when it held [old] before. *)
Definition message_after (errs : list Error) (old : option string) : option string :=
  match last errs with
  | Some e => Some (message e)
  | None => old
  end.

(** The name of the queue of a content type, and how many completed and
    failed jobs it retains. *)
Definition queue_name_of (t : ContentType) : string :=
  match t with IMAGE => "image-generation" | VIDEO => "video-generation" end.

Definition kept_completed (t : ContentType) : nat :=
  match t with IMAGE => 10 | VIDEO => 5 end.

Definition kept_failed (t : ContentType) : nat :=
  match t with IMAGE => 20 | VIDEO => 10 end.

(** Every job the queue holds has the options of the dispatcher, and the
    retained jobs are within the limits. *)
Definition queue_ok (t : ContentType) (st : BullMQ.Store) : Prop :=
  Forall (fun j => BullMQ.opts j = job_options t) (in_queue st) /\
  length (BullMQ.completed st) <= kept_completed t /\
  length (BullMQ.failed st) <= kept_failed t.

Definition queues_ok (b : gmap string BullMQ.Store) : Prop :=
  forall t st, b !! queue_name_of t = Some st -> queue_ok t st.

(** ** index.ts: the sockets *)

(** The rooms each connected socket is in, by socket id. A socket is in
    the room of its own id from its connection on, and in no room once it
    is disconnected. *)
Abbreviation Rooms := (gmap string (gset string)).

(** io.on('connection', ...) *)
Definition socket_connection (socketId : string) (rw : Rooms * World) : Rooms * World :=
  (<[socketId := {[socketId]}]> (fst rw),
   fst (Logger.info ("Client connected: " +:+ socketId) (snd rw))).

(** socket.on('join-room', ...) *)
Definition socket_join_room (socketId userId : string) (rw : Rooms * World)
  : Rooms * World :=
  (<[socketId := default ∅ (fst rw !! socketId) ∪ {["user-" +:+ userId]}]> (fst rw),
   fst (Logger.info ("User " +:+ userId +:+ " joined room") (snd rw))).

(** socket.on('disconnect', ...) *)
Definition socket_disconnect (socketId : string) (rw : Rooms * World) : Rooms * World :=
  (delete socketId (fst rw),
   fst (Logger.info ("Client disconnected: " +:+ socketId) (snd rw))).

(** [io.to(room).emit] reaches the sockets that are in the room. *)
Definition hears (rooms : Rooms) (socketId : string) (e : Emitted) : Prop :=
  exists joined, rooms !! socketId = Some joined /\ room e ∈ joined.

(** ** frontend/src/store/slices/authSlice.ts *)

Module AuthSlice.

Record Subscription := {
  plan : string;
  status : string;
  currentPeriodEnd : option string;
}.

Record User := {
  id : string;
  email : string;
  username : string;
  firstName : option string;
  lastName : option string;
  avatar : option string;
  subscription : option Subscription;
}.

(** [Partial<User>]: the properties the object has. *)
Record PartialUser := {
  with_id : option string;
  with_email : option string;
  with_username : option string;
  with_firstName : option string;
  with_lastName : option string;
  with_avatar : option string;
  with_subscription : option Subscription;
}.

(** [{ ...user, ...payload }] *)
Definition spread (u : User) (p : PartialUser) : User :=
  {| id := default (id u) (with_id p);
     email := default (email u) (with_email p);
     username := default (username u) (with_username p);
     firstName := assign (with_firstName p) (firstName u);
     lastName := assign (with_lastName p) (lastName u);
     avatar := assign (with_avatar p) (avatar u);
     subscription := assign (with_subscription p) (subscription u) |}.

Record AuthState := {
  user : option User;
  token : option string;
  isAuthenticated : bool;
  loading : bool;
  error : option string;
}.

(** [value || null] for a string that may be undefined: the empty string
    counts as none. *)
Definition or_null (value : option string) : option string :=
  match value with
  | Some s => if String.eqb s "" then None else Some s
  | None => None
  end.

(** [message || fallback] *)
Definition or_else (message : option string) (fallback : string) : string :=
  default fallback (or_null message).

(** [initialState], given what [Cookies.get('auth_token')] returns when
    the module is loaded. *)
Definition initialState (cookie : option string) : AuthState :=
  {| user := None; token := or_null cookie; isAuthenticated := false;
     loading := false; error := None |}.

(** The actions of the slice: its two reducers and the three actions of
    each thunk. Any other action leaves the state as it is. *)
Inductive Action :=
| clearError
| updateUser (payload : PartialUser)
| checkAuth_pending
| checkAuth_fulfilled (u : User) (t : string)
| checkAuth_rejected (payload : string)
| login_pending
| login_fulfilled (u : User) (t : string)
| login_rejected (payload : string)
| register_pending
| register_fulfilled (u : User) (t : string)
| register_rejected (payload : string)
| logout_pending
| logout_fulfilled
| logout_rejected (payload : string)
| other_action.

Definition reducer (state : AuthState) (action : Action) : AuthState :=
  match action with
  | clearError =>
      {| user := user state; token := token state;
         isAuthenticated := isAuthenticated state; loading := loading state;
         error := None |}
  | updateUser payload =>
      match user state with
      | Some u =>
          {| user := Some (spread u payload); token := token state;
             isAuthenticated := isAuthenticated state; loading := loading state;
             error := error state |}
      | None => state
      end
  | checkAuth_pending | login_pending | register_pending =>
      {| user := user state; token := token state;
         isAuthenticated := isAuthenticated state; loading := true;
         error := None |}
  | checkAuth_fulfilled u t | login_fulfilled u t | register_fulfilled u t =>
      {| user := Some u; token := Some t; isAuthenticated := true;
         loading := false; error := error state |}
  | checkAuth_rejected payload =>
      {| user := None; token := None; isAuthenticated := false;
         loading := false; error := Some payload |}
  | login_rejected payload | register_rejected payload =>
      {| user := user state; token := token state;
         isAuthenticated := isAuthenticated state; loading := false;
         error := Some payload |}
  | logout_pending =>
      {| user := user state; token := token state;
         isAuthenticated := isAuthenticated state; loading := true;
         error := error state |}
  | logout_fulfilled =>
      {| user := None; token := None; isAuthenticated := false;
         loading := false; error := None |}
  | logout_rejected payload =>
      {| user := None; token := None; isAuthenticated := false;
         loading := false; error := Some payload |}
  | other_action => state
  end.

(** The store's slice and the cookie [auth_token] of the browser. *)
Record Client := {
  state : AuthState;
  cookie : option string;
}.

Definition dispatch (action : Action) (c : Client) : Client :=
  {| state := reducer (state c) action; cookie := cookie c |}.

Definition Cookies_set (value : string) (c : Client) : Client :=
  {| state := state c; cookie := Some value |}.

Definition Cookies_remove (c : Client) : Client :=
  {| state := state c; cookie := None |}.

(** How a call of [authAPI] ends: with the data of the response, or with
    an error; [message] is [error.response?.data?.error?.message]. *)
Inductive Reply (A : Type) :=
| Ok (data : A)
| Err (message : option string).
Arguments Ok {A} data.
Arguments Err {A} message.

(** The thunks: [pending] is dispatched, the payload creator runs, and
    [fulfilled] or [rejected] is dispatched with what it returns. The
    argument is how the call of the API ends, if it is made. *)
Definition checkAuth (me : Reply User) (c : Client) : Client :=
  let c := dispatch checkAuth_pending c in
  match or_null (cookie c) with
  | None =>
      dispatch (checkAuth_rejected (or_else None "Authentication failed"))
        (Cookies_remove c)
  | Some t =>
      match me with
      | Ok u => dispatch (checkAuth_fulfilled u t) c
      | Err message =>
          dispatch (checkAuth_rejected (or_else message "Authentication failed"))
            (Cookies_remove c)
      end
  end.

Definition login (reply : Reply (string * User)) (c : Client) : Client :=
  let c := dispatch login_pending c in
  match reply with
  | Ok (t, u) => dispatch (login_fulfilled u t) (Cookies_set t c)
  | Err message => dispatch (login_rejected (or_else message "Login failed")) c
  end.


Definition logout (reply : Reply unit) (c : Client) : Client :=
  let c := dispatch logout_pending c in
  match reply with
  | Ok _ => dispatch logout_fulfilled (Cookies_remove c)
  | Err message =>
      dispatch (logout_rejected (or_else message "Logout failed")) (Cookies_remove c)
  end.

(** What the user interface can make happen: the four thunks and the two
    reducers the slice exports. *)
Inductive Event :=
| CheckAuth (me : Reply User)
| Login (reply : Reply (string * User))
| Register (reply : Reply (string * User))
| Logout (reply : Reply unit)
| ClearError
| UpdateUser (payload : PartialUser).


(** The client when the page is loaded with the given cookie. *)
Definition loaded (cookie : option string) : Client :=
  {| state := initialState cookie; cookie := cookie |}.

End AuthSlice.

(** A user and a client for the examples. *)
Definition ex_user : AuthSlice.User :=
  {| AuthSlice.id := "u-1"; AuthSlice.email := "ann@example.org";
     AuthSlice.username := "ann"; AuthSlice.firstName := None;
     AuthSlice.lastName := None; AuthSlice.avatar := None;
     AuthSlice.subscription := None |}.

(** ** middleware/errorHandler.ts and middleware/auth.ts *)

Module Auth.

(** model User and model UserSession of the schema, with the columns the
    middleware and the routes read. A session is found by its token,
    which is unique. *)
Record User := {
  id : string;
  email : string;
  username : string;
  password : string;
  isActive : bool;
}.

Record UserSession := {
  userId : string;
  expiresAt : Z;        (* milliseconds since the epoch *)
  session_isActive : bool;
}.

Record Db := {
  users : gmap string User;              (* prisma.user, by id *)
  sessions : gmap string UserSession;    (* prisma.userSession, by token *)
}.

(** [createError(message, statusCode)]: a [CustomError]. *)
Record CustomError := {
  error_message : string;
  statusCode : Z;
}.

Definition createError (message : string) (statusCode : Z) : CustomError :=
  {| error_message := message; statusCode := statusCode |}.

(** [req.user] *)
Record ReqUser := {
  req_id : string;
  req_email : string;
  req_username : string;
}.

(** What a middleware does in the end: [next()], with [req.user] as it
    then is, or [next(error)]. *)
Inductive Next :=
| next (user : option ReqUser)
| next_error (error : CustomError).

(** What the middleware needs from its surroundings: the variable
    JWT_SECRET, the clock, and [jwt.verify], which either returns the
    claims or throws a [JsonWebTokenError]. *)
Record Env := {
  JWT_SECRET : option string;
  Date_now : Z;
  jwt_verify : string -> string -> bool;
}.

(** [prisma.userSession.findUnique({ where: { token }, include: { user: true } })]:
    the session and, by the foreign key, its user. *)
Definition findSession (db : Db) (token : string) : option (UserSession * User) :=
  match sessions db !! token with
  | Some session =>
      match users db !! userId session with
      | Some u => Some (session, u)
      | None => None
      end
  | None => None
  end.

(** A variable of the environment that is set and not empty. *)
Definition configured (value : option string) : option string :=
  match value with
  | Some s => if String.eqb s "" then None else Some s
  | None => None
  end.

(** [authHeader.substring(7)] *)
Definition substring7 (s : string) : string :=
  String.substring 7 (String.length s - 7) s.

Definition authenticate (env : Env) (db : Db) (authorization : option string) : Next :=
  match authorization with
  | None => next_error (createError "Authentication token required" 401)
  | Some authHeader =>
      if negb (String.prefix "Bearer " authHeader)
      then next_error (createError "Authentication token required" 401)
      else
        let token := substring7 authHeader in
        match configured (JWT_SECRET env) with
        | None => next_error (createError "JWT secret not configured" 500)
        | Some secret =>
            if negb (jwt_verify env token secret)
            then next_error (createError "Invalid token" 401)
            else
              match findSession db token with
              | None => next_error (createError "Invalid or expired token" 401)
              | Some (session, u) =>
                  if negb (session_isActive session) || (expiresAt session <? Date_now env)%Z
                  then next_error (createError "Invalid or expired token" 401)
                  else if negb (isActive u)
                  then next_error (createError "Account is deactivated" 401)
                  else next (Some {| req_id := id u; req_email := email u;
                                     req_username := username u |})
              end
        end
  end.

(** [authorize(...roles)], on a request whose [req.user] is as given. *)
Definition authorize (roles : list string) (user : option ReqUser) : Next :=
  match user with
  | None => next_error (createError "Authentication required" 401)
  | Some _ => next user
  end.

(** [prisma.userSession.updateMany({ where: { token }, data: { isActive: false } })] *)
Definition deactivate (token : string) (db : Db) : Db :=
  {| users := users db;
     sessions :=
       alter (fun s => {| userId := userId s; expiresAt := expiresAt s;
                          session_isActive := false |}) token (sessions db) |}.

(** What a route answers: the status and the message of the body. *)
Record Response := {
  status : Z;
  body_message : string;
}.

(** POST /logout: [authenticate], then the handler; an error goes to
    the error handler, which answers with its status and message. *)
Definition post_logout (env : Env) (db : Db) (authorization : option string)
  : Db * Response :=
  match authenticate env db authorization with
  | next_error e => (db, {| status := statusCode e; body_message := error_message e |})
  | next _ =>
      let token := substring7 <$> authorization in
      let db' :=
        match token with
        | Some t => if String.eqb t "" then db else deactivate t db
        | None => db
        end in
      (db', {| status := 200; body_message := "Logout successful" |})
  end.

End Auth.

(** An environment, a user, and a database with one session for the
    examples; every token verifies. *)
Definition ex_env (now : Z) : Auth.Env :=
  {| Auth.JWT_SECRET := Some "secret"; Auth.Date_now := now;
     Auth.jwt_verify := fun _ _ => true |}.

Definition ex_account : Auth.User :=
  {| Auth.id := "u-1"; Auth.email := "ann@example.org"; Auth.username := "ann";
     Auth.password := "$2a$12$hash"; Auth.isActive := true |}.

Definition ex_db : Auth.Db :=
  {| Auth.users := {["u-1" := ex_account]};
     Auth.sessions :=
       {["tok-1" := {| Auth.userId := "u-1"; Auth.expiresAt := 1000;
                       Auth.session_isActive := true |};
         "tok-2" := {| Auth.userId := "u-1"; Auth.expiresAt := 2000;
                       Auth.session_isActive := true |}]} |}.

(** * The studio page of the front end (pages/StudioPage.tsx) *)

Module Studio.

(** What the page uses of fabric.js: values of object properties, objects
    and the canvas that holds them. The objects of a canvas are mutable;
    [set] and [remove] give the canvas after the mutation. Numbers are
    only stored and handed on by the page. *)
Class Fabric := {
  number : Type;
  Value : Type;
  Obj : Type;
  Canvas : Type;
  of_bool : bool -> Value;
  of_number : number -> Value;
  of_string : string -> Value;
  truthy : Value -> bool;                       (* [!!v] *)
  is_string : Value -> string -> bool;          (* [v === s] *)
  get : Obj -> string -> Value;                 (* [obj.key] *)
  getObjects : Canvas -> list Obj;
  set : Canvas -> Obj -> list (string * Value) -> Canvas;
  remove : Canvas -> Obj -> Canvas;
  bringForward : Canvas -> option Obj -> Canvas;    (* [(obj, true)] *)
  sendBackwards : Canvas -> option Obj -> Canvas;   (* [(obj, true)] *)
}.

Inductive LayerType := image | text | shape.

Record Layer `{Fabric} := {
  id : string;
  name : string;
  type : LayerType;
  visible : bool;
  opacity : number;
  blendMode : string;
  locked : bool;
}.

Section StudioPage.
Context `{Fabric}.

(** [ObjectProperties]: an object with the keys below, and with what
    [handlePropertyChange] adds. *)
Definition ObjectProperties := gmap string Value.

Definition property_keys : list string :=
  ["id"; "type"; "fill"; "stroke"; "strokeWidth"; "fontSize"; "fontFamily";
   "fontWeight"; "textAlign"; "left"; "top"; "width"; "height"; "angle";
   "scaleX"; "scaleY"; "opacity"].

(** The state of the component: its four [useState] cells. An element
    of the array of layers can be [undefined] ([None]): see
    [handleLayerReorder]. *)
Record State := {
  layers : list (option Layer);
  selectedLayer : option string;
  selectedObjectProperties : option ObjectProperties;
  canvasRef : option Canvas;
}.


(** [setLayers(updater)]. An updater that throws (a TypeError, on reading
    [layer.id] of [undefined]) makes the page throw when it renders:
    [None]. *)
Definition setLayers (f : list (option Layer) -> option (list (option Layer)))
  (s : State) : option State :=
  match f (layers s) with
  | Some l =>
      Some {| layers := l; selectedLayer := selectedLayer s;
              selectedObjectProperties := selectedObjectProperties s;
              canvasRef := canvasRef s |}
  | None => None
  end.

Definition setSelectedLayer (v : option string) (s : State) : State :=
  {| layers := layers s; selectedLayer := v;
     selectedObjectProperties := selectedObjectProperties s;
     canvasRef := canvasRef s |}.

Definition setSelectedObjectProperties
  (f : option ObjectProperties -> option ObjectProperties) (s : State) : State :=
  {| layers := layers s; selectedLayer := selectedLayer s;
     selectedObjectProperties := f (selectedObjectProperties s);
     canvasRef := canvasRef s |}.

(** A mutation of the canvas object that [canvasRef] refers to. *)
Definition mutate (c : Canvas) (s : State) : State :=
  {| layers := layers s; selectedLayer := selectedLayer s;
     selectedObjectProperties := selectedObjectProperties s;
     canvasRef := Some c |}.

(** [objects.find((o) => o.id === layerId)] *)
Definition find_object (c : Canvas) (layerId : string) : option Obj :=
  find (fun o => is_string (get o "id") layerId) (getObjects c).

(** [prev.map(layer => layer.id === layerId ? f(layer) : layer)] *)
Definition map_layer (layerId : string) (f : Layer -> Layer)
  (prev : list (option Layer)) : option (list (option Layer)) :=
  mapM (fun element =>
          match element with
          | Some layer =>
              Some (Some (if String.eqb (id layer) layerId then f layer else layer))
          | None => None
          end) prev.

(** [prev.filter(layer => layer.id !== layerId)] *)
Fixpoint filter_layer (layerId : string) (prev : list (option Layer))
  : option (list (option Layer)) :=
  match prev with
  | [] => Some []
  | None :: _ => None
  | Some layer :: prev =>
      match filter_layer layerId prev with
      | Some rest =>
          Some (if String.eqb (id layer) layerId then rest else Some layer :: rest)
      | None => None
      end
  end.

Definition handleLayersChange (newLayers : list Layer) (s : State) : option State :=
  setLayers (fun _ => Some (Some <$> newLayers)) s.

Definition handleLayerSelect (layerId : string) (s : State) : option State :=
  let s := setSelectedLayer (Some layerId) s in
  match canvasRef s with
  | Some c =>
      match find_object c layerId with
      | Some selectedObj =>
          let properties : ObjectProperties :=
            list_to_map (map (fun k => (k, get selectedObj k)) property_keys) in
          Some (setSelectedObjectProperties (fun _ => Some properties) s)
      | None => Some s
      end
  | None => Some s
  end.

Definition handleLayerToggleVisibility (layerId : string) (s : State) : option State :=
  match canvasRef s with
  | None => Some s
  | Some c =>
      match find_object c layerId with
      | Some obj =>
          let c := set c obj [("visible", of_bool (negb (truthy (get obj "visible"))))] in
          setLayers
            (map_layer layerId (fun layer =>
               {| id := id layer; name := name layer; type := type layer;
                  visible := negb (visible layer); opacity := opacity layer;
                  blendMode := blendMode layer; locked := locked layer |}))
            (mutate c s)
      | None => Some s
      end
  end.

Definition handleLayerToggleLock (layerId : string) (s : State) : option State :=
  match canvasRef s with
  | None => Some s
  | Some c =>
      match find_object c layerId with
      | Some obj =>
          let locked := negb (truthy (get obj "selectable")) in
          let c := set c obj [("selectable", of_bool (negb locked));
                              ("evented", of_bool (negb locked));
                              ("lockMovementX", of_bool locked);
                              ("lockMovementY", of_bool locked);
                              ("lockRotation", of_bool locked);
                              ("lockScalingX", of_bool locked);
                              ("lockScalingY", of_bool locked)] in
          setLayers
            (map_layer layerId (fun layer =>
               {| id := id layer; name := name layer; type := type layer;
                  visible := visible layer; opacity := opacity layer;
                  blendMode := blendMode layer; locked := locked |}))
            (mutate c s)
      | None => Some s
      end
  end.

Definition handleLayerDelete (layerId : string) (s : State) : option State :=
  match canvasRef s with
  | None => Some s
  | Some c =>
      match find_object c layerId with
      | Some obj =>
          match setLayers (filter_layer layerId) (mutate (remove c obj) s) with
          | Some s' =>
              if decide (selectedLayer s = Some layerId)
              then Some (setSelectedObjectProperties (fun _ => None)
                           (setSelectedLayer None s'))
              else Some s'
          | None => None
          end
      | None => Some s
      end
  end.

Definition handleLayerOpacityChange (layerId : string) (opacity : number) (s : State)
  : option State :=
  match canvasRef s with
  | None => Some s
  | Some c =>
      match find_object c layerId with
      | Some obj =>
          let c := set c obj [("opacity", of_number opacity)] in
          setLayers
            (map_layer layerId (fun layer =>
               {| id := id layer; name := name layer; type := type layer;
                  visible := visible layer; opacity := opacity;
                  blendMode := blendMode layer; locked := locked layer |}))
            (mutate c s)
      | None => Some s
      end
  end.

Definition handleLayerBlendModeChange (layerId blendMode : string) (s : State)
  : option State :=
  match canvasRef s with
  | None => Some s
  | Some c =>
      match find_object c layerId with
      | Some obj =>
          let c := set c obj [("globalCompositeOperation", of_string blendMode)] in
          setLayers
            (map_layer layerId (fun layer =>
               {| id := id layer; name := name layer; type := type layer;
                  visible := visible layer; opacity := opacity layer;
                  blendMode := blendMode; locked := locked layer |}))
            (mutate c s)
      | None => Some s
      end
  end.

(** [const [removed] = array.splice(start, 1)] and
    [array.splice(start, 0, item)], for indices that are not negative (the
    panel passes indices of its rows and their neighbours). Out of the
    array nothing is removed, [removed] is [undefined], and it is
    inserted as it is. *)
Definition splice_out (start : nat) (l : list (option Layer))
  : option Layer * list (option Layer) :=
  (mjoin (l !! start), take start l ++ drop (S start) l).

Definition splice_in (start : nat) (item : option Layer) (l : list (option Layer))
  : list (option Layer) :=
  take start l ++ item :: drop start l.

Definition handleLayerReorder (dragIndex dropIndex : nat) (s : State) : option State :=
  match canvasRef s with
  | None => Some s
  | Some c =>
      let (removed, newLayers) := splice_out dragIndex (layers s) in
      let newLayers := splice_in dropIndex removed newLayers in
      let draggedObj := getObjects c !! dragIndex in
      let c := if (dragIndex <? dropIndex)%nat
               then bringForward c draggedObj
               else sendBackwards c draggedObj in
      setLayers (fun _ => Some newLayers) (mutate c s)
  end.

Definition handleLayerRename (layerId newName : string) (s : State) : option State :=
  setLayers
    (map_layer layerId (fun layer =>
       {| id := id layer; name := newName; type := type layer;
          visible := visible layer; opacity := opacity layer;
          blendMode := blendMode layer; locked := locked layer |}))
    s.

Definition handlePropertyChange (property : string) (value : Value) (s : State)
  : option State :=
  match canvasRef s, selectedLayer s with
  | Some c, Some selected =>
      match find_object c selected with
      | Some obj =>
          Some (setSelectedObjectProperties
                  (fun prev => match prev with
                               | Some prev => Some (<[property := value]> prev)
                               | None => None
                               end)
                  (mutate (set c obj [(property, value)]) s))
      | None => Some s
      end
  | _, _ => Some s
  end.

(** What the page is asked to do: by the canvas component
    ([onLayersChange]), by the layers panel and by the properties panel. *)
Inductive Event :=
| LayersChange (newLayers : list Layer)
| LayerSelect (layerId : string)
| LayerToggleVisibility (layerId : string)
| LayerToggleLock (layerId : string)
| LayerDelete (layerId : string)
| LayerOpacityChange (layerId : string) (opacity : number)
| LayerBlendModeChange (layerId blendMode : string)
| LayerReorder (dragIndex dropIndex : nat)
| LayerRename (layerId newName : string)
| PropertyChange (property : string) (value : Value).

Definition handle (e : Event) (s : State) : option State :=
  match e with
  | LayersChange newLayers => handleLayersChange newLayers s
  | LayerSelect layerId => handleLayerSelect layerId s
  | LayerToggleVisibility layerId => handleLayerToggleVisibility layerId s
  | LayerToggleLock layerId => handleLayerToggleLock layerId s
  | LayerDelete layerId => handleLayerDelete layerId s
  | LayerOpacityChange layerId opacity => handleLayerOpacityChange layerId opacity s
  | LayerBlendModeChange layerId blendMode =>
      handleLayerBlendModeChange layerId blendMode s
  | LayerReorder dragIndex dropIndex => handleLayerReorder dragIndex dropIndex s
  | LayerRename layerId newName => handleLayerRename layerId newName s
  | PropertyChange property value => handlePropertyChange property value s
  end.

(** The page after the events, one after the other, each handled by the
    page as rendered after the one before; [None] when it has thrown. *)
Fixpoint run (events : list Event) (s : State) : option State :=
  match events with
  | [] => Some s
  | e :: events =>
      match handle e s with
      | Some s => run events s
      | None => None
      end
  end.


End StudioPage.

(** The layers panel (components/studio/LayersPanel.tsx): what its
    buttons and its drag and drop ask of the page. *)
Section LayersPanel.
Context `{Fabric}.



Definition handleDrop (draggedLayerIndex : option nat) (dropIndex : nat) : list Event :=
  match draggedLayerIndex with
  | Some dragged =>
      if negb (dragged =? dropIndex)%nat then [LayerReorder dragged dropIndex] else []
  | None => []
  end.

End LayersPanel.

End Studio.

(** A canvas for the examples: objects are maps from keys to values, are
    told apart by their content, and do not overlap, so that
    [bringForward] and [sendBackwards] with [intersecting] find no object
    to pass and leave the stack as it is. *)
Inductive ex_value :=
| VUndefined
| VBool (b : bool)
| VNum (n : Z)
| VStr (s : string).

#[local] Instance ex_value_eq_dec : EqDecision ex_value.
Proof. solve_decision. Defined.




(** * Properties *)

(** ** One attempt *)

(** Unfolds an attempt of either worker down to the collaborators. *)
Ltac unfold_attempt :=
  unfold BullMQ.processJob, BullMQ.emit_failed, BullMQ.emit_completed;
  cbn [worker_of imageWorker videoWorker BullMQ.processor BullMQ.on_failed
       BullMQ.on_completed foldl];
  unfold imageWorker_on_failed, videoWorker_on_failed,
    imageWorker_on_completed, videoWorker_on_completed,
    processImageGeneration, processVideoGeneration, handleJobFailure,
    notifyUser, logUsage, updateGenerationStatus, try_catch, await,
    Prisma.generatedOutput_update, Prisma.usageLog_create, Axios.post,
    Logger.error, Logger.info, Io.to_emit, Date_now,
    process_env_AI_SERVICE_URL, resolve, throw.

(** An attempt whose call to the AI service fails: the row goes through
    PROCESSING to FAILED with the message, the user is notified, and the
    library decides between a retry and the final failure. *)
Lemma attempt_rejected t r job w row el e :
  generatedOutput w !! outputId (BullMQ.data job) = Some row ->
  Axios.settle (budget t) (service w (length (requests w))) = (el, Rejected e) ->
  exists req lines,
    timeout req = budget t /\
    BullMQ.processJob (worker_of t r) job w =
      ({| generatedOutput :=
            <[outputId (BullMQ.data job) := failed_row (message e) row]>
              (generatedOutput w);
          usageLog := usageLog w;
          sent := sent w ++ [failed_event (BullMQ.data job) e];
          logged := logged w ++ lines;
          now := (now w + el)%Z;
          AI_SERVICE_URL := AI_SERVICE_URL w;
          service := service w;
          requests := requests w ++ [req] |},
       after_throw job e).
Proof.
  intros Hrow Hcall.
  destruct t; cbn [budget] in Hcall; unfold_attempt;
    rewrite Hrow; cbn [requests with_generatedOutput service];
    rewrite Hcall;
    cbn [generatedOutput with_logged with_call with_generatedOutput fst snd];
    rewrite lookup_insert_eq;
    (eexists; eexists; split; [| unfold after_throw;
       cbn [BullMQ.attempted BullMQ.opts BullMQ.attemptsMade];
       destruct (BullMQ.attempts (BullMQ.opts job)) as [n|];
       [destruct (S (BullMQ.attemptsMade job) <? n)%nat|];
       cbn; rewrite insert_insert_eq, <- !app_assoc;
       unfold failed_event, failed_row; cbn; reflexivity]);
    reflexivity.
Qed.

(** An attempt whose call to the AI service is answered in time: the row
    is COMPLETED with the answer and the rounded duration, one usage row
    is appended, and the user is notified. *)
Lemma attempt_resolved t r job w row el resp :
  generatedOutput w !! outputId (BullMQ.data job) = Some row ->
  Axios.settle (budget t) (service w (length (requests w))) = (el, Resolved resp) ->
  exists req lines,
    timeout req = budget t /\
    BullMQ.processJob (worker_of t r) job w =
      ({| generatedOutput :=
            <[outputId (BullMQ.data job) :=
                completed_row resp (Math_round_div el 1000) row]>
              (generatedOutput w);
          usageLog := usageLog w ++
            [usage_row t (BullMQ.data job) resp (Math_round_div el 1000)];
          sent := sent w ++ [complete_event t (BullMQ.data job)];
          logged := logged w ++ lines;
          now := (now w + el)%Z;
          AI_SERVICE_URL := AI_SERVICE_URL w;
          service := service w;
          requests := requests w ++ [req] |},
       BullMQ.Completed (BullMQ.attempted job)).
Proof.
  intros Hrow Hcall.
  destruct t; cbn [budget] in Hcall; unfold_attempt;
    rewrite Hrow; cbn [requests with_generatedOutput service];
    rewrite Hcall;
    cbn [generatedOutput with_logged with_call with_generatedOutput fst snd now];
    rewrite lookup_insert_eq;
    (eexists; eexists; split; [|
       cbn; rewrite insert_insert_eq;
       replace (now w + el - now w)%Z with el by lia;
       unfold complete_event, completed_row, usage_row; cbn; reflexivity]);
    reflexivity.
Qed.

(** ** The retry loop *)

Lemma run_unfold wk fuel j w :
  BullMQ.run wk fuel j w =
    match BullMQ.processJob wk j w with
    | (w', BullMQ.Retrying j' err ms) =>
        match fuel with
        | 0 => (w', BullMQ.Retrying j' err ms)
        | S fuel' => BullMQ.run wk fuel' j' (with_delay ms w')
        end
    | settled => settled
    end.
Proof. destruct fuel; reflexivity. Qed.

Lemma failed_row_again m1 m2 row :
  failed_row m2 (failed_row m1 row) = failed_row m2 row.
Proof. reflexivity. Qed.

Lemma rejection_settle t svc i e :
  rejection t svc i = Some e ->
  exists el, Axios.settle (budget t) (svc i) = (el, Rejected e).
Proof.
  unfold rejection. destruct (Axios.settle (budget t) (svc i)) as [el [resp|e']];
    cbn; intros H; inversion H; subst; eauto.
Qed.

Lemma rejections_cons t svc c m e :
  rejection t svc c = Some e ->
  rejections t svc c (S m) = e :: rejections t svc (S c) m.
Proof. intros H. unfold rejections. cbn. rewrite H. reflexivity. Qed.

Lemma after_throw_last j e n :
  BullMQ.attempts (BullMQ.opts j) = Some n ->
  n <= S (BullMQ.attemptsMade j) ->
  after_throw j e = BullMQ.Failed (BullMQ.attempted j) e.
Proof.
  intros Hn Hle. unfold after_throw. rewrite Hn.
  destruct (Nat.ltb_spec (S (BullMQ.attemptsMade j)) n); [lia | reflexivity].
Qed.

Lemma after_throw_retry j e n :
  BullMQ.attempts (BullMQ.opts j) = Some n ->
  S (BullMQ.attemptsMade j) < n ->
  after_throw j e =
    BullMQ.Retrying (BullMQ.attempted j) e
      (BullMQ.backoff_delay (BullMQ.opts j) (S (BullMQ.attemptsMade j))).
Proof.
  intros Hn Hlt. unfold after_throw. rewrite Hn.
  destruct (Nat.ltb_spec (S (BullMQ.attemptsMade j)) n); [reflexivity | lia].
Qed.

(** A job all of whose calls are rejected is attempted until its attempts
    are used up; every attempt leaves the row FAILED and notifies. *)
Lemma run_all_rejected t r n m :
  forall fuel job w row,
    BullMQ.attempts (BullMQ.opts job) = Some n ->
    BullMQ.attemptsMade job + S m = n ->
    m <= fuel ->
    generatedOutput w !! outputId (BullMQ.data job) = Some row ->
    (forall i, i <= m ->
       is_Some (rejection t (service w) (length (requests w) + i))) ->
    exists w' j' e,
      BullMQ.run (worker_of t r) fuel job w = (w', BullMQ.Failed j' e) /\
      BullMQ.attemptsMade j' = n /\
      BullMQ.data j' = BullMQ.data job /\
      generatedOutput w' =
        <[outputId (BullMQ.data job) := failed_row (message e) row]>
          (generatedOutput w) /\
      usageLog w' = usageLog w /\
      sent w' = (sent w ++
        (failed_event (BullMQ.data job) <$>
           rejections t (service w) (length (requests w)) (S m)))%list /\
      last (rejections t (service w) (length (requests w)) (S m)) = Some e /\
      length (requests w') = length (requests w) + S m /\
      service w' = service w.
Proof.
  induction m as [|m IH]; intros fuel job w row Hn Ha Hfuel Hrow Hrej.
  - destruct (Hrej 0 ltac:(lia)) as [e He].
    rewrite Nat.add_0_r in He.
    destruct (rejection_settle _ _ _ _ He) as [el Hel].
    destruct (attempt_rejected t r job w row el e Hrow Hel) as (req & lines & _ & Hp).
    rewrite run_unfold, Hp, (after_throw_last job e n Hn ltac:(lia)).
    eexists _, _, e. split; [reflexivity|].
    rewrite (rejections_cons _ _ _ _ _ He).
    cbn [generatedOutput usageLog sent requests service BullMQ.attempted
         BullMQ.attemptsMade BullMQ.data rejections seq omap fmap list_fmap last].
    rewrite length_app. cbn [length].
    repeat split; try reflexivity; lia.
  - destruct (Hrej 0 ltac:(lia)) as [e He].
    rewrite Nat.add_0_r in He.
    destruct (rejection_settle _ _ _ _ He) as [el Hel].
    destruct (attempt_rejected t r job w row el e Hrow Hel) as (req & lines & _ & Hp).
    destruct fuel as [|fuel]; [lia|].
    rewrite run_unfold, Hp, (after_throw_retry job e n Hn ltac:(lia)).
    match goal with |- context [BullMQ.run _ _ ?j ?w1] =>
      destruct (IH fuel j w1 (failed_row (message e) row)) as
        (w' & j' & e' & Hrun & Hmade & Hdata & Hout & Hlog & Hsent & Hlast & Hreq & Hsvc)
    end.
    + exact Hn.
    + cbn. lia.
    + lia.
    + cbn. apply lookup_insert_eq.
    + intros i Hi. cbn. rewrite length_app. cbn.
      replace (length (requests w) + 1 + i) with (length (requests w) + S i) by lia.
      apply Hrej. lia.
    + cbn [generatedOutput usageLog sent requests service with_delay
           BullMQ.attempted BullMQ.data]
        in Hout, Hlog, Hsent, Hlast, Hreq, Hsvc, Hdata.
      rewrite length_app in Hsent, Hlast, Hreq. cbn [length] in Hsent, Hlast, Hreq.
      replace (length (requests w) + 1) with (S (length (requests w))) in * by lia.
      exists w', j', e'. split; [exact Hrun|].
      rewrite (rejections_cons _ _ _ _ _ He).
      repeat split.
      * exact Hmade.
      * exact Hdata.
      * rewrite Hout, insert_insert_eq. reflexivity.
      * exact Hlog.
      * rewrite Hsent, <- app_assoc. reflexivity.
      * revert Hlast.
        generalize (rejections t (service w) (S (length (requests w))) (S m)).
        intros [|x l] Hlast; [discriminate Hlast | exact Hlast].
      * lia.
      * exact Hsvc.
Qed.

(** A job whose first [k] calls are rejected and whose next call is
    answered in time, with attempts left for it, completes at that call. *)
Lemma run_resolved_at t r n k :
  forall fuel job w row el resp,
    BullMQ.attempts (BullMQ.opts job) = Some n ->
    BullMQ.attemptsMade job + k < n ->
    k <= fuel ->
    generatedOutput w !! outputId (BullMQ.data job) = Some row ->
    (forall i, i < k ->
       is_Some (rejection t (service w) (length (requests w) + i))) ->
    Axios.settle (budget t) (service w (length (requests w) + k)) =
      (el, Resolved resp) ->
    exists w' j' row',
      BullMQ.run (worker_of t r) fuel job w = (w', BullMQ.Completed j') /\
      BullMQ.attemptsMade j' = BullMQ.attemptsMade job + S k /\
      BullMQ.data j' = BullMQ.data job /\
      generatedOutput w' =
        <[outputId (BullMQ.data job) :=
            completed_row resp (Math_round_div el 1000) row']>
          (generatedOutput w) /\
      usageLog w' =
        (usageLog w ++
           [usage_row t (BullMQ.data job) resp (Math_round_div el 1000)])%list /\
      sent w' =
        (sent w ++
           (failed_event (BullMQ.data job) <$>
              rejections t (service w) (length (requests w)) k) ++
           [complete_event t (BullMQ.data job)])%list /\
      length (requests w') = length (requests w) + S k /\
      service w' = service w.
Proof.
  induction k as [|k IH]; intros fuel job w row el resp Hn Ha Hfuel Hrow Hrej Hok.
  - rewrite Nat.add_0_r in Hok.
    destruct (attempt_resolved t r job w row el resp Hrow Hok) as (req & lines & _ & Hp).
    rewrite run_unfold, Hp.
    eexists _, _, row. split; [reflexivity|].
    cbn [generatedOutput usageLog sent requests service BullMQ.attempted
         BullMQ.attemptsMade BullMQ.data rejections seq omap fmap list_fmap app].
    rewrite length_app. cbn [length].
    repeat split; try reflexivity; lia.
  - destruct (Hrej 0 ltac:(lia)) as [e He].
    rewrite Nat.add_0_r in He.
    destruct (rejection_settle _ _ _ _ He) as [el' Hel].
    destruct (attempt_rejected t r job w row el' e Hrow Hel) as (req & lines & _ & Hp).
    destruct fuel as [|fuel]; [lia|].
    rewrite run_unfold, Hp, (after_throw_retry job e n Hn ltac:(lia)).
    match goal with |- context [BullMQ.run _ _ ?j ?w1] =>
      destruct (IH fuel j w1 (failed_row (message e) row) el resp) as
        (w' & j' & row' & Hrun & Hmade & Hdata & Hout & Hlog & Hsent & Hreq & Hsvc)
    end.
    + exact Hn.
    + cbn. lia.
    + lia.
    + cbn. apply lookup_insert_eq.
    + intros i Hi. cbn. rewrite length_app. cbn.
      replace (length (requests w) + 1 + i) with (length (requests w) + S i) by lia.
      apply Hrej. lia.
    + cbn. rewrite length_app. cbn.
      replace (length (requests w) + 1 + k) with (length (requests w) + S k) by lia.
      exact Hok.
    + cbn [generatedOutput usageLog sent requests service with_delay
           BullMQ.attempted BullMQ.data BullMQ.attemptsMade]
        in Hout, Hlog, Hsent, Hreq, Hsvc, Hdata, Hmade.
      rewrite length_app in Hsent, Hreq. cbn [length] in Hsent, Hreq.
      replace (length (requests w) + 1) with (S (length (requests w))) in * by lia.
      exists w', j', row'. split; [exact Hrun|].
      rewrite (rejections_cons _ _ _ _ _ He).
      repeat split.
      * lia.
      * exact Hdata.
      * rewrite Hout, insert_insert_eq. reflexivity.
      * exact Hlog.
      * rewrite Hsent, <- app_assoc. reflexivity.
      * lia.
      * exact Hsvc.
Qed.

Lemma rejections_length t svc c m :
  (forall i, i < m -> is_Some (rejection t svc (c + i))) ->
  length (rejections t svc c m) = m.
Proof.
  revert c. induction m as [|m IH]; intros c H; [reflexivity|].
  destruct (H 0 ltac:(lia)) as [e He]. rewrite Nat.add_0_r in He.
  rewrite (rejections_cons _ _ _ _ _ He). cbn. f_equal. apply IH.
  intros i Hi. replace (S c + i) with (c + S i) by lia. apply H. lia.
Qed.

(** Among the next [m] calls, either all are rejected or there is a first
    one that is answered in time. *)
Lemma first_resolved t svc c m :
  (forall i, i < m -> is_Some (rejection t svc (c + i))) \/
  exists k el resp,
    k < m /\
    (forall i, i < k -> is_Some (rejection t svc (c + i))) /\
    Axios.settle (budget t) (svc (c + k)) = (el, Resolved resp).
Proof.
  induction m as [|m [IH | (k & el & resp & Hk & Hbefore & Hok)]].
  - left. intros i Hi. lia.
  - destruct (Axios.settle (budget t) (svc (c + m))) as [el [resp|e]] eqn:E.
    + right. exists m, el, resp. auto.
    + left. intros i Hi. destruct (decide (i = m)) as [->|Hne].
      * unfold rejection. rewrite E. cbn. eauto.
      * apply IH. lia.
  - right. exists k, el, resp. auto.
Qed.

(** ** Jobs as the dispatcher creates them *)

Lemma add_job_resolved t r d s :
  queue_of t s = Some (new_queue t r) ->
  exists s' job,
    add_job t d s = (s', Resolved job) /\
    BullMQ.data job = d /\
    BullMQ.attemptsMade job = 0 /\
    BullMQ.attempts (BullMQ.opts job) = Some (configured_attempts t).
Proof.
  intros Hq. destruct t; cbn in Hq |- *;
    unfold addImageGenerationJob, addVideoGenerationJob; rewrite Hq;
    unfold on_broker, BullMQ.Queue_add; cbn; eauto 10.
Qed.

Lemma add_job_inv t r d s s' job :
  queue_of t s = Some (new_queue t r) ->
  add_job t d s = (s', Resolved job) ->
  BullMQ.data job = d /\
  BullMQ.attemptsMade job = 0 /\
  BullMQ.attempts (BullMQ.opts job) = Some (configured_attempts t).
Proof.
  intros Hq Hadd.
  destruct (add_job_resolved t r d s Hq) as (s2 & j2 & Hadd2 & H).
  rewrite Hadd in Hadd2. inversion Hadd2; subst. exact H.
Qed.

Lemma ex_image_job_added :
  snd (addImageGenerationJob (ex_data "out-1" IMAGE) ex_started) = Resolved ex_image_job.
Proof. reflexivity. Qed.

(** ** Jobs that fail *)




(** ** Jobs that succeed *)

(** [Math.round(ms / 1000)] is the whole number of seconds nearest to
    [ms] milliseconds. *)
Lemma Math_round_div_nearest ms :
  (-500 < 1000 * Math_round_div ms 1000 - ms <= 500)%Z.
Proof.
  unfold Math_round_div.
  pose proof (Z.div_mod (2 * ms + 1000) (2 * 1000) ltac:(lia)).
  pose proof (Z.mod_pos_bound (2 * ms + 1000) (2 * 1000) ltac:(lia)).
  lia.
Qed.

(** C4. Take a job as the dispatcher enqueues it, whose row exists, whose
    first [k] calls to the AI service are rejected, with [k] below the
    configured attempts, and whose next call is answered with [resp]
    after [latency] ms, within the time budget. The job completes: the
    row is COMPLETED with the file path, thumbnail path and metadata of
    [resp] and with the measured duration rounded to whole seconds as
    processing time, exactly one usage row is appended, and the last
    event sent is [generation-complete], on the channel of the job's
    user. *)
Theorem answered_job_completes t r s d s' job w row k latency resp :
  queue_of t s = Some (new_queue t r) ->
  add_job t d s = (s', Resolved job) ->
  generatedOutput w !! outputId d = Some row ->
  k < configured_attempts t ->
  (forall i, i < k ->
     is_Some (rejection t (service w) (length (requests w) + i))) ->
  service w (length (requests w) + k) = Responds latency resp ->
  (latency < budget t)%Z ->
  let seconds := Math_round_div latency 1000 in
  exists w' j' row',
    BullMQ.runJob (worker_of t r) job w = (w', BullMQ.Completed j') /\
    generatedOutput w' !! outputId d = Some row' /\
    go_status row' = COMPLETED /\
    go_filePath row' = Some (filePath resp) /\
    go_thumbnailPath row' = Some (thumbnailPath resp) /\
    go_metadata row' = Some (metadata resp) /\
    go_processingTime row' = Some seconds /\
    (-500 < 1000 * seconds - latency <= 500)%Z /\
    usageLog w' = (usageLog w ++ [usage_row t d resp seconds])%list /\
    last (sent w') = Some (complete_event t d) /\
    room (complete_event t d) = "user-" +:+ userId d /\
    sent w' =
      (sent w ++
         (failed_event d <$> rejections t (service w) (length (requests w)) k) ++
         [complete_event t d])%list.
Proof.
  intros Hq Hadd Hrow Hk Hrej Hsvc Hlat seconds.
  destruct (add_job_inv t r d s s' job Hq Hadd) as (Hd & Ha & Hn).
  subst d.
  assert (Hok : Axios.settle (budget t) (service w (length (requests w) + k)) =
                  (latency, Resolved resp)).
  { rewrite Hsvc. cbn. destruct (Z.ltb_spec latency (budget t)); [reflexivity | lia]. }
  destruct (run_resolved_at t r (configured_attempts t) k
              (configured_attempts t) job w row latency resp) as
    (w' & j' & row' & Hrun & Hmade & Hdata & Hout & Hlog & Hsent & Hreq & Hsvc');
    try assumption; try lia.
  exists w', j', (completed_row resp seconds row').
  split; [unfold BullMQ.runJob; rewrite Hn; exact Hrun|].
  split; [rewrite Hout; apply lookup_insert_eq|].
  do 5 (split; [reflexivity|]).
  split; [apply Math_round_div_nearest|].
  split; [exact Hlog|].
  split; [rewrite Hsent, !app_assoc; apply last_snoc|].
  split; [reflexivity | exact Hsent].
Qed.

(** The theorem at an image job whose first call fails and whose second
    call is answered after 2.5 s. *)
Lemma answered_job_completes_witness :
  exists w' j' row',
    BullMQ.runJob (imageWorker ex_redis) ex_image_job
      (ex_world [ex_row "out-1" IMAGE PENDING] fails_once) =
      (w', BullMQ.Completed j') /\
    generatedOutput w' !! "out-1" = Some row' /\
    go_status row' = COMPLETED /\
    go_filePath row' = Some "/f.png" /\
    go_processingTime row' = Some 3%Z /\
    length (usageLog w') = 1.
Proof.
  destruct (answered_job_completes IMAGE ex_redis ex_started
              (ex_data "out-1" IMAGE)
              (fst (addImageGenerationJob (ex_data "out-1" IMAGE) ex_started))
              ex_image_job
              (ex_world [ex_row "out-1" IMAGE PENDING] fails_once)
              (ex_row "out-1" IMAGE PENDING) 1 2500%Z ex_response)
    as (w' & j' & row' & Hrun & Hout & Hst & Hfile & _ & _ & Htime & _ & Hlog & _).
  - reflexivity.
  - reflexivity.
  - reflexivity.
  - cbn. lia.
  - intros i Hi. replace i with 0 by lia. eexists. reflexivity.
  - reflexivity.
  - reflexivity.
  - exists w', j', row'. split; [exact Hrun|]. split; [exact Hout|].
    split; [exact Hst|]. split; [exact Hfile|]. split; [exact Htime|].
    rewrite Hlog. reflexivity.
Defined.

(** ** Notifications *)

(** C6, as the code has it. A job as the dispatcher enqueues it, whose
    row exists, always reaches a terminal outcome, and one notification
    is emitted per attempt, all of them on the channel [user-{userId}] of
    the job's user: [generation-failed] after every failed attempt, those
    that are retried included, and [generation-complete] after the
    successful one. The last event matches the outcome; a job that fails
    for good has used all its attempts. *)
Theorem one_notification_per_attempt t r s d s' job w row :
  queue_of t s = Some (new_queue t r) ->
  add_job t d s = (s', Resolved job) ->
  generatedOutput w !! outputId d = Some row ->
  exists w' o evs,
    BullMQ.runJob (worker_of t r) job w = (w', o) /\
    sent w' = (sent w ++ evs)%list /\
    Forall (fun ev => room ev = "user-" +:+ userId d) evs /\
    match o with
    | BullMQ.Completed j' =>
        length evs = BullMQ.attemptsMade j' /\
        exists errs,
          evs = ((failed_event d <$> errs) ++ [complete_event t d])%list
    | BullMQ.Failed j' e =>
        length evs = BullMQ.attemptsMade j' /\
        BullMQ.attemptsMade j' = configured_attempts t /\
        exists errs,
          evs = ((failed_event d <$> errs) ++ [failed_event d e])%list
    | BullMQ.Retrying _ _ _ => False
    end.
Proof.
  intros Hq Hadd Hrow.
  destruct (add_job_inv t r d s s' job Hq Hadd) as (Hd & Ha & Hn).
  subst d. unfold BullMQ.runJob. rewrite Hn. cbn [default].
  assert (HN : configured_attempts t = S (pred (configured_attempts t)))
    by (destruct t; reflexivity).
  destruct (first_resolved t (service w) (length (requests w))
              (configured_attempts t))
    as [Hall | (k & el & resp & Hk & Hbefore & Hok)].
  - destruct (run_all_rejected t r (configured_attempts t)
                (pred (configured_attempts t))
                (configured_attempts t) job w row) as
      (w' & j' & e & Hrun & Hmade & Hdata & Hout & Hlog & Hsent & Hlast & Hreq & Hsvc);
      try assumption; try lia.
    { intros i Hi. apply Hall. lia. }
    rewrite <- HN in Hsent, Hlast.
    apply last_Some in Hlast. destruct Hlast as [errs Herrs].
    eexists w', _, _. split; [exact Hrun|]. split; [exact Hsent|].
    split; [apply Forall_fmap, Forall_true; intros x; reflexivity|].
    split; [|split; [exact Hmade|]].
    + rewrite length_fmap, Hmade. apply rejections_length. exact Hall.
    + exists errs. rewrite Herrs, fmap_app. reflexivity.
  - destruct (run_resolved_at t r (configured_attempts t) k
                (configured_attempts t) job w row el resp) as
      (w' & j' & row' & Hrun & Hmade & Hdata & Hout & Hlog & Hsent & Hreq & Hsvc);
      try assumption; try lia.
    eexists w', _, _. split; [exact Hrun|]. split; [exact Hsent|].
    split.
    { apply Forall_app. split.
      - apply Forall_fmap, Forall_true. intros x. reflexivity.
      - repeat constructor. }
    split; [|eauto].
    rewrite length_app, length_fmap, (rejections_length _ _ _ _ Hbefore), Hmade, Ha.
    cbn. lia.
Qed.

(** The theorem at an image job whose first call fails and whose second
    call is answered. *)
Lemma one_notification_per_attempt_witness :
  exists w' o evs,
    BullMQ.runJob (imageWorker ex_redis) ex_image_job
      (ex_world [ex_row "out-1" IMAGE PENDING] fails_once) = (w', o) /\
    sent w' = evs /\
    Forall (fun ev => room ev = "user-u-1") evs.
Proof.
  destruct (one_notification_per_attempt IMAGE ex_redis ex_started
              (ex_data "out-1" IMAGE)
              (fst (addImageGenerationJob (ex_data "out-1" IMAGE) ex_started))
              ex_image_job
              (ex_world [ex_row "out-1" IMAGE PENDING] fails_once)
              (ex_row "out-1" IMAGE PENDING))
    as (w' & o & evs & Hrun & Hsent & Hroom & _).
  - reflexivity.
  - reflexivity.
  - reflexivity.
  - exists w', o, evs. split; [exact Hrun|]. split; [exact Hsent|]. exact Hroom.
Defined.

(** C6 as the spec has it fails: an image job whose first call fails and
    whose second call is answered completes, and two events were emitted
    for it, [generation-failed] and then [generation-complete]. *)
Lemma retried_job_is_notified_twice :
  let w := ex_world [ex_row "out-1" IMAGE PENDING] fails_once in
  (exists j', snd (BullMQ.runJob (imageWorker ex_redis) ex_image_job w) =
                BullMQ.Completed j') /\
  sent (fst (BullMQ.runJob (imageWorker ex_redis) ex_image_job w)) =
    [{| room := "user-u-1"; event := "generation-failed";
        payload := JObject [("outputId", JString "out-1");
                            ("type", JString "IMAGE");
                            ("error", JString "Request failed with status code 500")] |};
     {| room := "user-u-1"; event := "generation-complete";
        payload := JObject [("outputId", JString "out-1");
                            ("type", JString "IMAGE");
                            ("status", JString "COMPLETED")] |}].
Proof. vm_compute. split; [eexists|]; reflexivity. Qed.

(** ** The status of a row *)







(** ** The failure listeners *)

(** Whatever makes the processor throw, the library hands the error to
    the failure listeners, with the job. *)
Lemma thrown_error_reaches_listeners wk job w w1 err :
  BullMQ.processor wk job w = (w1, Rejected err) ->
  BullMQ.processJob wk job w =
    (BullMQ.emit_failed (BullMQ.on_failed wk) (Some (BullMQ.attempted job)) err w1,
     after_throw job err).
Proof.
  intros H. unfold BullMQ.processJob, after_throw. rewrite H.
  cbn [BullMQ.attempted BullMQ.opts BullMQ.attemptsMade].
  destruct (BullMQ.attempts (BullMQ.opts job)) as [n|]; [|reflexivity].
  destruct (S (BullMQ.attemptsMade job) <? n)%nat; reflexivity.
Qed.



(** Without a job, or for a job whose row does not exist, the listener
    only logs: nothing is stored and nobody is notified. *)
Lemma failure_without_job_or_row_is_only_logged t r job err w :
  let listen j := BullMQ.emit_failed (BullMQ.on_failed (worker_of t r)) j err w in
  (generatedOutput (listen None) = generatedOutput w /\ sent (listen None) = sent w) /\
  (generatedOutput w !! outputId (BullMQ.data job) = None ->
   generatedOutput (listen (Some job)) = generatedOutput w /\
   sent (listen (Some job)) = sent w).
Proof.
  cbn zeta. split.
  - destruct t; split; reflexivity.
  - intros Hrow.
    destruct t; unfold BullMQ.emit_failed;
      cbn [worker_of imageWorker videoWorker BullMQ.on_failed foldl];
      unfold imageWorker_on_failed, videoWorker_on_failed, await, Logger.error,
        handleJobFailure, await, Prisma.generatedOutput_update;
      cbn [generatedOutput with_logged]; rewrite Hrow; split; reflexivity.
Qed.


(** ** Set-up *)

Lemma setupQueues_resolved s w r :
  redis s = Some r ->
  setupQueues (s, w) =
    (({| redis := Some r;
         imageQueue := Some (new_imageQueue r);
         videoQueue := Some (new_videoQueue r);
         workers := workers s ++ [imageWorker r; videoWorker r];
         broker := broker s |},
      with_logged
        (logged w ++ [{| level := INFO;
                         text := "✅ Queues and workers set up successfully";
                         detail := None |}]) w),
     Resolved tt).
Proof.
  intros Hr. unfold setupQueues, await, in_services, in_world, getRedis.
  cbn. rewrite Hr. cbn. rewrite <- app_assoc. rewrite Hr. reflexivity.
Qed.

(** C9. As long as the queue variable is undefined, the dispatcher throws
    and leaves the module variables and the queues' content as they are:
    no job is enqueued. As long as the Redis variable is undefined,
    [setupQueues] rejects with the error of [getRedis], and changes
    nothing either, so that the queue variables stay undefined. *)
Theorem dispatch_and_setup_throw_before_setup s w data :
  (imageQueue s = None ->
   addImageGenerationJob data s =
     (s, Rejected {| message := "Cannot read properties of undefined (reading 'add')" |})) /\
  (videoQueue s = None ->
   addVideoGenerationJob data s =
     (s, Rejected {| message := "Cannot read properties of undefined (reading 'add')" |})) /\
  (redis s = None ->
   setupQueues (s, w) =
     ((s, w), Rejected {| message := "Redis not initialized. Call setupRedis() first." |})).
Proof.
  repeat split; intros H.
  - unfold addImageGenerationJob. rewrite H. reflexivity.
  - unfold addVideoGenerationJob. rewrite H. reflexivity.
  - unfold setupQueues, await, in_services, getRedis. cbn. rewrite H. reflexivity.
Qed.

(** The theorem before anything is set up. *)
Lemma dispatch_and_setup_throw_before_setup_witness :
  let w := ex_world [] always_hangs in
  fst (addImageGenerationJob (ex_data "out-1" IMAGE) boot) = boot /\
  fst (addVideoGenerationJob (ex_data "out-2" VIDEO) boot) = boot /\
  setupQueues (boot, w) =
    ((boot, w), Rejected {| message := "Redis not initialized. Call setupRedis() first." |}).
Proof.
  cbn zeta.
  destruct (dispatch_and_setup_throw_before_setup boot (ex_world [] always_hangs)
              (ex_data "out-1" IMAGE)) as (H1 & _ & H3).
  destruct (dispatch_and_setup_throw_before_setup boot (ex_world [] always_hangs)
              (ex_data "out-2" VIDEO)) as (_ & H2 & _).
  split; [rewrite H1; reflexivity|]. split; [rewrite H2; reflexivity|].
  apply H3. reflexivity.
Defined.

(** C5. [setupQueues] creates the image queue with 3 attempts and an
    exponential backoff of 2000 ms, which makes the first retry wait 2
    seconds, and the video queue with 2 attempts and an exponential
    backoff of 5000 ms, 5 seconds. The call of the image processor to the
    AI service carries a timeout of 300000 ms, 300 seconds, and the one
    of the video processor 600000 ms, 600 seconds; neither processor
    waits longer than that. *)
Theorem queues_and_calls_are_configured s w r job row :
  redis s = Some r ->
  generatedOutput w !! outputId (BullMQ.data job) = Some row ->
  let s' := fst (fst (setupQueues (s, w))) in
  let wi := fst (processImageGeneration job w) in
  let wv := fst (processVideoGeneration job w) in
  (exists q,
     imageQueue s' = Some q /\
     BullMQ.attempts (BullMQ.defaultJobOptions q) = Some 3 /\
     BullMQ.backoff (BullMQ.defaultJobOptions q) =
       Some {| BullMQ.backoff_type := "exponential"; BullMQ.delay := 2000 |} /\
     BullMQ.backoff_delay (BullMQ.defaultJobOptions q) 1 = (2 * 1000)%Z) /\
  (exists q,
     videoQueue s' = Some q /\
     BullMQ.attempts (BullMQ.defaultJobOptions q) = Some 2 /\
     BullMQ.backoff (BullMQ.defaultJobOptions q) =
       Some {| BullMQ.backoff_type := "exponential"; BullMQ.delay := 5000 |} /\
     BullMQ.backoff_delay (BullMQ.defaultJobOptions q) 1 = (5 * 1000)%Z) /\
  (exists req,
     requests wi = (requests w ++ [req])%list /\
     timeout req = (300 * 1000)%Z /\
     (now wi <= now w + 300 * 1000)%Z) /\
  (exists req,
     requests wv = (requests w ++ [req])%list /\
     timeout req = (600 * 1000)%Z /\
     (now wv <= now w + 600 * 1000)%Z).
Proof.
  intros Hr Hrow s' wi wv. subst s' wi wv.
  rewrite (setupQueues_resolved s w r Hr).
  split; [eexists; repeat split; reflexivity|].
  split; [eexists; repeat split; reflexivity|].
  split.
  - unfold processImageGeneration, try_catch, await, updateGenerationStatus,
      await, Prisma.generatedOutput_update, logUsage, Prisma.usageLog_create,
      Axios.post, Axios.settle, Date_now, process_env_AI_SERVICE_URL, resolve,
      throw, Logger.error.
    rewrite Hrow. cbn [requests with_generatedOutput service].
    destruct (service w (length (requests w))) as [lat resp | lat reason |];
      try destruct (Z.ltb_spec lat 300000);
      cbn; try rewrite lookup_insert_eq; cbn;
      (eexists; split; [reflexivity | split; [reflexivity | lia]]).
  - unfold processVideoGeneration, try_catch, await, updateGenerationStatus,
      await, Prisma.generatedOutput_update, logUsage, Prisma.usageLog_create,
      Axios.post, Axios.settle, Date_now, process_env_AI_SERVICE_URL, resolve,
      throw, Logger.error.
    rewrite Hrow. cbn [requests with_generatedOutput service].
    destruct (service w (length (requests w))) as [lat resp | lat reason |];
      try destruct (Z.ltb_spec lat 600000);
      cbn; try rewrite lookup_insert_eq; cbn;
      (eexists; split; [reflexivity | split; [reflexivity | lia]]).
Qed.

(** The theorem at a server whose Redis handle is set and an image job. *)
Lemma queues_and_calls_are_configured_witness :
  let s := {| redis := Some ex_redis; imageQueue := None; videoQueue := None;
              workers := []; broker := ∅ |} in
  let w := ex_world [ex_row "out-1" IMAGE PENDING] always_hangs in
  (exists q, imageQueue (fst (fst (setupQueues (s, w)))) = Some q /\
             BullMQ.attempts (BullMQ.defaultJobOptions q) = Some 3) /\
  (exists q, videoQueue (fst (fst (setupQueues (s, w)))) = Some q /\
             BullMQ.attempts (BullMQ.defaultJobOptions q) = Some 2) /\
  (now (fst (processImageGeneration ex_image_job w)) <= now w + 300 * 1000)%Z.
Proof.
  cbn zeta.
  destruct (queues_and_calls_are_configured
              {| redis := Some ex_redis; imageQueue := None; videoQueue := None;
                 workers := []; broker := ∅ |}
              (ex_world [ex_row "out-1" IMAGE PENDING] always_hangs)
              ex_redis ex_image_job (ex_row "out-1" IMAGE PENDING))
    as ((qi & Hqi & Hai & _) & (qv & Hqv & Hav & _) & (req & _ & _ & Hnow) & _).
  - reflexivity.
  - reflexivity.
  - split; [exists qi; split; assumption|].
    split; [exists qv; split; assumption|]. exact Hnow.
Defined.

(** ** The dispatcher and the completion event *)

Lemma enqueue_elem j l : j ∈ BullMQ.enqueue j l.
Proof.
  induction l as [|k l IH]; cbn.
  - apply list_elem_of_here.
  - destruct (BullMQ.rank k <=? BullMQ.rank j)%Z.
    + apply list_elem_of_further, IH.
    + apply list_elem_of_here.
Qed.

(** C10. The dispatcher of a content type puts the job into the queue of
    that content type, with the data as given: the [type] field of the
    data is not looked at. The completion listener of a worker names the
    content type of its queue in the event, IMAGE for the image worker
    and VIDEO for the video worker, and does not read the [type] field of
    the job either. *)
Theorem completion_event_names_the_queue t r s d job w :
  queue_of t s = Some (new_queue t r) ->
  (exists s' j st,
     add_job t d s = (s', Resolved j) /\
     BullMQ.data j = d /\
     broker s' !! BullMQ.worker_name (worker_of t r) = Some st /\
     j ∈ BullMQ.wait st) /\
  sent (BullMQ.emit_completed (BullMQ.on_completed (worker_of t r)) job w) =
    (sent w ++
       [{| room := "user-" +:+ userId (BullMQ.data job);
           event := "generation-complete";
           payload :=
             JObject [("outputId", JString (outputId (BullMQ.data job)));
                      ("type", JString (ContentType_name t));
                      ("status", JString "COMPLETED")] |}])%list.
Proof.
  intros Hq. split.
  - destruct t; cbn in Hq |- *;
      unfold addImageGenerationJob, addVideoGenerationJob; rewrite Hq;
      unfold on_broker, BullMQ.Queue_add; cbn;
      eexists _, _, _; (split; [reflexivity|]); (split; [reflexivity|]);
      (split; [apply lookup_insert_eq|]); cbn; apply enqueue_elem.
  - destruct t; reflexivity.
Qed.

(** The theorem at a job that says VIDEO and is given to the image
    dispatcher: it waits in the image queue, and the image worker reports
    it as IMAGE. *)
Lemma completion_event_names_the_queue_witness :
  let d := ex_data "out-1" VIDEO in
  (exists s' j st,
     addImageGenerationJob d ex_started = (s', Resolved j) /\
     type (BullMQ.data j) = VIDEO /\
     broker s' !! "image-generation" = Some st /\
     j ∈ BullMQ.wait st) /\
  type (BullMQ.data ex_mislabelled_job) = VIDEO /\
  payload <$> sent (fst (imageWorker_on_completed ex_mislabelled_job
                           (ex_world [] always_hangs))) =
    [JObject [("outputId", JString "out-1");
              ("type", JString "IMAGE");
              ("status", JString "COMPLETED")]].
Proof.
  cbn zeta.
  destruct (completion_event_names_the_queue IMAGE ex_redis ex_started
              (ex_data "out-1" VIDEO) ex_mislabelled_job (ex_world [] always_hangs))
    as ((s' & j & st & Hadd & Hd & Hst & Hin) & Hsent); [reflexivity|].
  split.
  - exists s', j, st. split; [exact Hadd|]. split; [rewrite Hd; reflexivity|].
    split; [exact Hst | exact Hin].
  - split; [reflexivity|].
    change (fst (imageWorker_on_completed ex_mislabelled_job (ex_world [] always_hangs)))
      with (BullMQ.emit_completed (BullMQ.on_completed (worker_of IMAGE ex_redis))
              ex_mislabelled_job (ex_world [] always_hangs)).
    rewrite Hsent. reflexivity.
Defined.

(** ** The running server *)

Lemma startServer_resolved REDIS_URL w0 :
  exists r w,
    startServer REDIS_URL (Resolved tt) (boot, w0) =
      (({| redis := Some r;
           imageQueue := Some (new_imageQueue r);
           videoQueue := Some (new_videoQueue r);
           workers := [imageWorker r; videoWorker r];
           broker := ∅ |}, w), Resolved tt).
Proof. eexists _, _. reflexivity. Qed.

Lemma startServer_inv REDIS_URL w0 sw0 :
  startServer REDIS_URL (Resolved tt) (boot, w0) = (sw0, Resolved tt) ->
  exists r,
    fst sw0 = {| redis := Some r;
                 imageQueue := Some (new_imageQueue r);
                 videoQueue := Some (new_videoQueue r);
                 workers := [imageWorker r; videoWorker r];
                 broker := ∅ |}.
Proof.
  intros H. destruct (startServer_resolved REDIS_URL w0) as (r & w & Hs).
  rewrite Hs in H. inversion H; subst. exists r. reflexivity.
Qed.

Lemma remove_length j l : length (BullMQ.remove j l) <= length l.
Proof. apply length_filter. Qed.

(** A move of a worker keeps the active jobs of its queue within its
    concurrency, and leaves the other queues alone. *)
Lemma worker_move_within wk m b w b' w' :
  BullMQ.worker_move wk m (b, w) = Some (b', w') ->
  within (BullMQ.concurrency wk) (BullMQ.worker_name wk) b ->
  within (BullMQ.concurrency wk) (BullMQ.worker_name wk) b'.
Proof.
  unfold BullMQ.worker_move, within. intros Hmove Hin st' Hst'.
  destruct (b !! BullMQ.worker_name wk) as [st|] eqn:Hst; [|discriminate].
  specialize (Hin st eq_refl).
  destruct m as [|n|n].
  - unfold BullMQ.getNextJob in Hmove.
    destruct (Nat.ltb_spec (length (BullMQ.active st)) (BullMQ.concurrency wk));
      [|discriminate].
    destruct (BullMQ.wait st) as [|j rest]; [discriminate|].
    inversion Hmove; subst. unfold BullMQ.set_store in Hst'.
    rewrite lookup_insert_eq in Hst'. inversion Hst'; subst. cbn.
    rewrite length_app. cbn. lia.
  - destruct (List.find (BullMQ.has_id n) (BullMQ.active st)) as [j|]; [|discriminate].
    destruct (BullMQ.processJob wk j w) as [w1 o].
    inversion Hmove; subst. unfold BullMQ.set_store in Hst'.
    rewrite lookup_insert_eq in Hst'. inversion Hst'; subst.
    destruct o as [j'|j' e ms|j' e]; cbn;
      (etransitivity; [apply remove_length | exact Hin]).
  - destruct (List.find (BullMQ.has_id n) (BullMQ.delayed st)) as [j|]; [|discriminate].
    inversion Hmove; subst. unfold BullMQ.set_store in Hst'.
    rewrite lookup_insert_eq in Hst'. inversion Hst'; subst. exact Hin.
Qed.

Lemma worker_move_elsewhere wk m b w b' w' queue :
  BullMQ.worker_move wk m (b, w) = Some (b', w') ->
  queue <> BullMQ.worker_name wk ->
  b' !! queue = b !! queue.
Proof.
  unfold BullMQ.worker_move. intros Hmove Hne.
  destruct (b !! BullMQ.worker_name wk) as [st|]; [|discriminate].
  destruct m as [|n|n].
  - destruct (BullMQ.getNextJob wk st) as [[j st']|]; [|discriminate].
    inversion Hmove; subst. apply lookup_insert_ne. congruence.
  - destruct (List.find (BullMQ.has_id n) (BullMQ.active st)) as [j|]; [|discriminate].
    destruct (BullMQ.processJob wk j w) as [w1 o].
    inversion Hmove; subst. apply lookup_insert_ne. congruence.
  - destruct (List.find (BullMQ.has_id n) (BullMQ.delayed st)) as [j|]; [|discriminate].
    inversion Hmove; subst. apply lookup_insert_ne. congruence.
Qed.

(** Enqueuing a job does not touch the active jobs of any queue. *)
Lemma Queue_add_within q nm d o b c queue :
  within c queue b ->
  within c queue (fst (BullMQ.Queue_add q nm d o b)).
Proof.
  unfold within, BullMQ.Queue_add. cbn. intros Hin st' Hst'.
  destruct (decide (BullMQ.queue_name q = queue)) as [<-|Hne].
  - rewrite lookup_insert_eq in Hst'. inversion Hst'; subst. cbn.
    destruct (b !! BullMQ.queue_name q) as [st|] eqn:Hst; cbn.
    + apply (Hin st). reflexivity.
    + lia.
  - rewrite lookup_insert_ne in Hst' by exact Hne. apply (Hin st' Hst').
Qed.

Lemma act_inv a s w s' w' :
  act a (s, w) = Some (s', w') ->
  server_inv s -> server_inv s'.
Proof.
  intros Hact (r & Hr & Hi & Hv & Hw & Himg & Hvid).
  destruct a as [d|d|i m]; unfold act in Hact.
  - inversion Hact; subst. unfold addImageGenerationJob. rewrite Hi.
    unfold on_broker.
    destruct (BullMQ.Queue_add (new_imageQueue r) "generate-image" d
                (priority_only 10) (broker s)) as [b res] eqn:E.
    exists r. cbn. repeat split; try assumption.
    + replace b with (fst (BullMQ.Queue_add (new_imageQueue r) "generate-image" d
                             (priority_only 10) (broker s))) by (rewrite E; reflexivity).
      apply Queue_add_within, Himg.
    + replace b with (fst (BullMQ.Queue_add (new_imageQueue r) "generate-image" d
                             (priority_only 10) (broker s))) by (rewrite E; reflexivity).
      apply Queue_add_within, Hvid.
  - inversion Hact; subst. unfold addVideoGenerationJob. rewrite Hv.
    unfold on_broker.
    destruct (BullMQ.Queue_add (new_videoQueue r) "generate-video" d
                (priority_only 5) (broker s)) as [b res] eqn:E.
    exists r. cbn. repeat split; try assumption.
    + replace b with (fst (BullMQ.Queue_add (new_videoQueue r) "generate-video" d
                             (priority_only 5) (broker s))) by (rewrite E; reflexivity).
      apply Queue_add_within, Himg.
    + replace b with (fst (BullMQ.Queue_add (new_videoQueue r) "generate-video" d
                             (priority_only 5) (broker s))) by (rewrite E; reflexivity).
      apply Queue_add_within, Hvid.
  - rewrite Hw in Hact.
    destruct i as [|[|i]]; cbn [lookup list_lookup] in Hact; [| |discriminate].
    + destruct (BullMQ.worker_move (imageWorker r) m (broker s, w))
        as [[b w1]|] eqn:E; [|discriminate].
      inversion Hact; subst. exists r. cbn. repeat split; try assumption.
      * apply (worker_move_within _ _ _ _ _ _ E Himg).
      * unfold within.
        rewrite (worker_move_elsewhere _ _ _ _ _ _ "video-generation" E)
          by discriminate.
        exact Hvid.
    + destruct (BullMQ.worker_move (videoWorker r) m (broker s, w))
        as [[b w1]|] eqn:E; [|discriminate].
      inversion Hact; subst. exists r. cbn. repeat split; try assumption.
      * unfold within.
        rewrite (worker_move_elsewhere _ _ _ _ _ _ "image-generation" E)
          by discriminate.
        exact Himg.
      * apply (worker_move_within _ _ _ _ _ _ E Hvid).
Qed.

Lemma play_inv l :
  forall sw sw', play l sw = Some sw' -> server_inv (fst sw) -> server_inv (fst sw').
Proof.
  induction l as [|a l IH]; intros [s w] [s' w'] Hplay Hinv; cbn [play] in Hplay.
  - inversion Hplay; subst. exact Hinv.
  - destruct (act a (s, w)) as [[s1 w1]|] eqn:E; [|discriminate].
    apply (IH (s1, w1) (s', w') Hplay). cbn.
    apply (act_inv _ _ _ _ _ E Hinv).
Qed.

Lemma reachable_inv sw : reachable sw -> server_inv (fst sw).
Proof.
  intros (url & w0 & sw0 & l & Hstart & Hplay).
  apply (play_inv l sw0 sw Hplay).
  destruct (startServer_inv _ _ _ Hstart) as (r & Hs). rewrite Hs.
  exists r. cbn. repeat split; intros st Hst; rewrite lookup_empty in Hst; discriminate.
Qed.

(** *** No job is held twice *)

Lemma enqueue_perm j l : BullMQ.enqueue j l ≡ₚ j :: l.
Proof.
  induction l as [|k l IH]; cbn; [reflexivity|].
  destruct (BullMQ.rank k <=? BullMQ.rank j)%Z; [|reflexivity].
  rewrite IH. apply Permutation_swap.
Qed.

Lemma find_has_id n l j :
  List.find (BullMQ.has_id n) l = Some j -> j ∈ l /\ BullMQ.id j = n.
Proof.
  intros H. apply List.find_some in H. destruct H as [Hin Hid].
  split; [apply list_elem_of_In, Hin|].
  unfold BullMQ.has_id in Hid. apply Nat.eqb_eq, Hid.
Qed.

Lemma processJob_outcome_id wk j w :
  BullMQ.id (outcome_job (snd (BullMQ.processJob wk j w))) = BullMQ.id j.
Proof.
  unfold BullMQ.processJob.
  destruct (BullMQ.processor wk j w) as [w1 [[]|err]]; [reflexivity|].
  cbn [BullMQ.attempted BullMQ.opts BullMQ.attemptsMade].
  destruct (BullMQ.attempts (BullMQ.opts j)) as [n|]; [|reflexivity].
  destruct (S (BullMQ.attemptsMade j) <? n)%nat; reflexivity.
Qed.

Lemma remove_absent j l :
  BullMQ.id j ∉ BullMQ.id <$> l -> BullMQ.remove j l = l.
Proof.
  unfold BullMQ.remove. induction l as [|x l IH]; intros Hnot; [reflexivity|].
  cbn in Hnot. apply not_elem_of_cons in Hnot. destruct Hnot as [Hne Hnot].
  rewrite filter_cons_True by congruence. f_equal. apply IH, Hnot.
Qed.

(** Removing a job that is in the list, by id, takes out its id once. *)
Lemma remove_ids j k l :
  NoDup (BullMQ.id <$> l) -> k ∈ l -> BullMQ.id j = BullMQ.id k ->
  BullMQ.id <$> l ≡ₚ BullMQ.id k :: (BullMQ.id <$> BullMQ.remove j l).
Proof.
  intros Hnd Hin Hid.
  induction l as [|x l IH]; [inversion Hin|].
  cbn in Hnd. apply NoDup_cons in Hnd. destruct Hnd as [Hx Hnd].
  apply elem_of_cons in Hin. destruct Hin as [->|Hin].
  - unfold BullMQ.remove. rewrite filter_cons_False by (intros Hne; congruence).
    fold (BullMQ.remove j l). rewrite remove_absent by (rewrite Hid; exact Hx).
    reflexivity.
  - unfold BullMQ.remove. rewrite filter_cons_True.
    + fold (BullMQ.remove j l). cbn. rewrite (IH Hnd Hin). apply Permutation_swap.
    + rewrite Hid. intros Heq. apply Hx. rewrite Heq.
      apply list_elem_of_fmap_2, Hin.
Qed.

Lemma store_ok_perm st st' :
  held st' ≡ₚ held st -> BullMQ.counter st' = BullMQ.counter st ->
  store_ok st -> store_ok st'.
Proof.
  intros Hp Hc [Hnd Hle]. unfold store_ok. rewrite Hp, Hc. split; assumption.
Qed.

Lemma store_ok_drop x st st' :
  held st ≡ₚ x :: held st' -> BullMQ.counter st' = BullMQ.counter st ->
  store_ok st -> store_ok st'.
Proof.
  intros Hp Hc [Hnd Hle]. unfold store_ok. rewrite Hp in Hnd, Hle. rewrite Hc.
  apply NoDup_cons in Hnd. apply Forall_cons in Hle. tauto.
Qed.

Lemma store_ok_default (o : option BullMQ.Store) :
  (forall st, o = Some st -> store_ok st) -> store_ok (default BullMQ.empty_store o).
Proof.
  destruct o as [st|]; cbn; intros H; [apply H; reflexivity|].
  split; [apply NoDup_nil_2 | apply Forall_nil_2].
Qed.

Lemma Queue_add_ok q nm d o b :
  broker_ok b -> broker_ok (fst (BullMQ.Queue_add q nm d o b)).
Proof.
  unfold broker_ok, BullMQ.Queue_add. cbn. intros Hok queue st' Hst'.
  destruct (decide (BullMQ.queue_name q = queue)) as [<-|Hne];
    [|rewrite lookup_insert_ne in Hst' by exact Hne; apply (Hok _ _ Hst')].
  rewrite lookup_insert_eq in Hst'. inversion Hst'; subst. clear Hst'.
  destruct (store_ok_default (b !! BullMQ.queue_name q)) as [Hnd Hle];
    [intros st Hst; apply (Hok _ _ Hst)|].
  set (st := default BullMQ.empty_store (b !! BullMQ.queue_name q)) in *.
  match goal with |- store_ok ?st1 =>
    assert (Hp : held st1 ≡ₚ S (BullMQ.counter st) :: held st)
  end.
  { unfold held, in_queue. cbn [BullMQ.wait BullMQ.delayed BullMQ.active].
    rewrite !fmap_app, enqueue_perm. reflexivity. }
  unfold store_ok. rewrite Hp. cbn [BullMQ.counter]. split.
  - apply NoDup_cons. split; [|exact Hnd].
    intros Hin. rewrite Forall_forall in Hle. specialize (Hle _ Hin). lia.
  - apply Forall_cons. split; [lia|].
    eapply Forall_impl; [exact Hle|]. cbn. intros; lia.
Qed.

Lemma worker_move_ok wk m b w b' w' :
  BullMQ.worker_move wk m (b, w) = Some (b', w') ->
  broker_ok b -> broker_ok b'.
Proof.
  unfold BullMQ.worker_move, broker_ok. intros Hmove Hok queue st' Hst'.
  destruct (b !! BullMQ.worker_name wk) as [st|] eqn:Hst; [|discriminate].
  pose proof (Hok _ _ Hst) as Hs.
  assert (Hother : forall b0 st0, b' = BullMQ.set_store wk st0 b0 -> b0 = b ->
            queue <> BullMQ.worker_name wk -> store_ok st').
  { intros b0 st0 -> -> Hne. unfold BullMQ.set_store in Hst'.
    rewrite lookup_insert_ne in Hst' by congruence. apply (Hok _ _ Hst'). }
  destruct m as [|n|n].
  - unfold BullMQ.getNextJob in Hmove.
    destruct (length (BullMQ.active st) <? BullMQ.concurrency wk)%nat; [|discriminate].
    destruct (BullMQ.wait st) as [|j rest] eqn:Hwait; [discriminate|].
    inversion Hmove; subst.
    destruct (decide (queue = BullMQ.worker_name wk)) as [->|Hne];
      [|eapply Hother; eauto].
    unfold BullMQ.set_store in Hst'. rewrite lookup_insert_eq in Hst'.
    inversion Hst'; subst. apply (store_ok_perm st); [|reflexivity|exact Hs].
    unfold held, in_queue. cbn. rewrite Hwait, !fmap_app. cbn. solve_Permutation.
  - destruct (List.find (BullMQ.has_id n) (BullMQ.active st)) as [j|] eqn:Hfind;
      [|discriminate].
    apply find_has_id in Hfind. destruct Hfind as [Hin Hid].
    pose proof (processJob_outcome_id wk j w) as Hoid.
    destruct (BullMQ.processJob wk j w) as [w1 o]. cbn in Hoid.
    inversion Hmove; subst.
    destruct (decide (queue = BullMQ.worker_name wk)) as [->|Hne];
      [|eapply Hother; eauto].
    unfold BullMQ.set_store in Hst'. rewrite lookup_insert_eq in Hst'.
    inversion Hst'; subst. clear Hst'.
    assert (Hact : BullMQ.id <$> BullMQ.active st ≡ₚ
                   BullMQ.id j :: (BullMQ.id <$> BullMQ.remove (outcome_job o)
                                                   (BullMQ.active st))).
    { apply remove_ids; [|exact Hin|exact Hoid].
      destruct Hs as [Hnd _]. unfold held, in_queue in Hnd. rewrite !fmap_app in Hnd.
      apply NoDup_app in Hnd. destruct Hnd as (_ & _ & Hnd).
      apply NoDup_app in Hnd. tauto. }
    destruct o as [j'|j' e ms|j' e]; cbn [outcome_job] in *.
    + apply (store_ok_drop (BullMQ.id j) st); [|reflexivity|exact Hs].
      unfold held, in_queue. cbn. rewrite !fmap_app, Hact. solve_Permutation.
    + apply (store_ok_perm st); [|reflexivity|exact Hs].
      unfold held, in_queue. cbn. rewrite !fmap_app, Hact. cbn. rewrite Hoid. solve_Permutation.
    + apply (store_ok_drop (BullMQ.id j) st); [|reflexivity|exact Hs].
      unfold held, in_queue. cbn. rewrite !fmap_app, Hact. solve_Permutation.
  - destruct (List.find (BullMQ.has_id n) (BullMQ.delayed st)) as [j|] eqn:Hfind;
      [|discriminate].
    apply find_has_id in Hfind. destruct Hfind as [Hin Hid].
    inversion Hmove; subst.
    destruct (decide (queue = BullMQ.worker_name wk)) as [->|Hne];
      [|eapply Hother; eauto].
    unfold BullMQ.set_store in Hst'. rewrite lookup_insert_eq in Hst'.
    inversion Hst'; subst. clear Hst'.
    apply (store_ok_perm st); [|reflexivity|exact Hs].
    assert (Hdel : BullMQ.id <$> BullMQ.delayed st ≡ₚ
                   BullMQ.id j :: (BullMQ.id <$> BullMQ.remove j (BullMQ.delayed st))).
    { apply remove_ids; [|exact Hin|reflexivity].
      destruct Hs as [Hnd _]. unfold held, in_queue in Hnd. rewrite !fmap_app in Hnd.
      apply NoDup_app in Hnd. destruct Hnd as (_ & _ & Hnd).
      apply NoDup_app in Hnd. tauto. }
    unfold held, in_queue. cbn. rewrite !fmap_app, enqueue_perm, Hdel. cbn. solve_Permutation.
Qed.

Lemma act_ok a s w s' w' :
  act a (s, w) = Some (s', w') ->
  broker_ok (broker s) -> broker_ok (broker s').
Proof.
  intros Hact Hok. destruct a as [d|d|i m]; unfold act in Hact.
  - inversion Hact; subst. unfold addImageGenerationJob.
    destruct (imageQueue s) as [q|]; [|exact Hok].
    unfold on_broker.
    destruct (BullMQ.Queue_add q "generate-image" d (priority_only 10) (broker s))
      as [b res] eqn:E. cbn.
    replace b with (fst (BullMQ.Queue_add q "generate-image" d (priority_only 10)
                           (broker s))) by (rewrite E; reflexivity).
    apply Queue_add_ok, Hok.
  - inversion Hact; subst. unfold addVideoGenerationJob.
    destruct (videoQueue s) as [q|]; [|exact Hok].
    unfold on_broker.
    destruct (BullMQ.Queue_add q "generate-video" d (priority_only 5) (broker s))
      as [b res] eqn:E. cbn.
    replace b with (fst (BullMQ.Queue_add q "generate-video" d (priority_only 5)
                           (broker s))) by (rewrite E; reflexivity).
    apply Queue_add_ok, Hok.
  - destruct (workers s !! i) as [wk|]; [|discriminate].
    destruct (BullMQ.worker_move wk m (broker s, w)) as [[b w1]|] eqn:E; [|discriminate].
    inversion Hact; subst. cbn. apply (worker_move_ok _ _ _ _ _ _ E Hok).
Qed.

Lemma play_ok l :
  forall sw sw',
    play l sw = Some sw' -> broker_ok (broker (fst sw)) -> broker_ok (broker (fst sw')).
Proof.
  induction l as [|a l IH]; intros [s w] [s' w'] Hplay Hok; cbn [play] in Hplay.
  - inversion Hplay; subst. exact Hok.
  - destruct (act a (s, w)) as [[s1 w1]|] eqn:E; [|discriminate].
    apply (IH (s1, w1) (s', w') Hplay). cbn.
    apply (act_ok _ _ _ _ _ E Hok).
Qed.

Lemma reachable_ok sw : reachable sw -> broker_ok (broker (fst sw)).
Proof.
  intros (url & w0 & sw0 & l & Hstart & Hplay).
  apply (play_ok l sw0 sw Hplay).
  destruct (startServer_inv _ _ _ Hstart) as (r & Hs). rewrite Hs.
  intros queue st Hst. cbn in Hst. rewrite lookup_empty in Hst. discriminate.
Qed.

(** C8. In every state the server reaches from its start, whatever jobs
    are enqueued and however the workers move, at most 2 jobs of the
    image queue and at most 1 job of the video queue are active: the
    workers are the two that [setupQueues] creates, with concurrency 2
    and 1, and a worker takes a job, one at a time, only while it holds
    fewer jobs than its concurrency. No job is held twice: the ids of
    the waiting, delayed and active jobs of a queue are distinct, so that
    a job is not active in two slots, nor waiting while it is active. *)
Theorem workers_stay_within_concurrency sw :
  reachable sw ->
  (exists r,
     workers (fst sw) = [imageWorker r; videoWorker r] /\
     BullMQ.concurrency (imageWorker r) = 2 /\
     BullMQ.concurrency (videoWorker r) = 1) /\
  length (ids_in BullMQ.active "image-generation" sw) <= 2 /\
  length (ids_in BullMQ.active "video-generation" sw) <= 1 /\
  NoDup (ids_in in_queue "image-generation" sw) /\
  NoDup (ids_in in_queue "video-generation" sw) /\
  (forall wk st j st',
     wk ∈ workers (fst sw) ->
     BullMQ.getNextJob wk st = Some (j, st') ->
     length (BullMQ.active st) < BullMQ.concurrency wk /\
     BullMQ.active st' = BullMQ.active st ++ [j]).
Proof.
  intros Hreach.
  destruct (reachable_inv sw Hreach) as (r & Hr & Hi & Hv & Hw & Himg & Hvid).
  pose proof (reachable_ok sw Hreach) as Hok.
  split; [exists r; repeat split; exact Hw|].
  unfold ids_in, within in *.
  split; [destruct (broker (fst sw) !! "image-generation") as [st|] eqn:E; cbn;
          [rewrite length_fmap; apply (Himg st eq_refl) | lia]|].
  split; [destruct (broker (fst sw) !! "video-generation") as [st|] eqn:E; cbn;
          [rewrite length_fmap; apply (Hvid st eq_refl) | lia]|].
  split; [destruct (broker (fst sw) !! "image-generation") as [st|] eqn:E;
          [apply (Hok _ _ E) | apply NoDup_nil_2]|].
  split; [destruct (broker (fst sw) !! "video-generation") as [st|] eqn:E;
          [apply (Hok _ _ E) | apply NoDup_nil_2]|].
  intros wk st j st' _ Hnext. unfold BullMQ.getNextJob in Hnext.
  destruct (Nat.ltb_spec (length (BullMQ.active st)) (BullMQ.concurrency wk));
    [|discriminate].
  destruct (BullMQ.wait st) as [|k rest]; [discriminate|].
  inversion Hnext; subst. split; [assumption | reflexivity].
Qed.

(** The theorem at a server where three image jobs were enqueued and the
    image worker took two: those two are active, and the worker does not
    take the third. *)
Lemma workers_stay_within_concurrency_witness :
  ids_in BullMQ.active "image-generation" ex_saturated = [1; 2] /\
  ids_in BullMQ.wait "image-generation" ex_saturated = [3] /\
  act (Work 0 BullMQ.Fetch) ex_saturated = None /\
  length (ids_in BullMQ.active "image-generation" ex_saturated) <= 2.
Proof.
  split; [reflexivity|]. split; [reflexivity|]. split; [reflexivity|].
  apply (workers_stay_within_concurrency ex_saturated).
  exists None, ex_busy_world, ex_start, ex_saturating_schedule.
  split; reflexivity.
Defined.

(** ** Priorities *)

(** In one queue the job with the lower number goes first: a job of
    priority 5 is put before a waiting job of priority 10. *)
Lemma lower_number_goes_first j5 j10 :
  BullMQ.priority (BullMQ.opts j5) = Some 5%Z ->
  BullMQ.priority (BullMQ.opts j10) = Some 10%Z ->
  BullMQ.enqueue j5 [j10] = [j5; j10] /\ BullMQ.enqueue j10 [j5] = [j5; j10].
Proof.
  intros H5 H10. unfold BullMQ.enqueue, BullMQ.rank. rewrite H5, H10.
  split; reflexivity.
Qed.

(** C2, as the code has it. An image job and a video job that are
    enqueued at the same time go to two queues, [image-generation] with
    priority 10 and [video-generation] with priority 5, each with its own
    worker. The priorities order a job among the jobs of its own queue
    only; enqueuing the video job leaves the image queue as it is, and
    the other way round. Each of the two jobs is the next of its worker
    as soon as no earlier job of its queue waits and its worker has a
    free slot, whatever the other queue holds. *)
Theorem image_and_video_jobs_are_dispatched_apart r s dI dV :
  imageQueue s = Some (new_imageQueue r) ->
  videoQueue s = Some (new_videoQueue r) ->
  let sti := default BullMQ.empty_store (broker s !! "image-generation") in
  let stv := default BullMQ.empty_store (broker s !! "video-generation") in
  exists s1 ji s2 jv sti' stv',
    addImageGenerationJob dI s = (s1, Resolved ji) /\
    addVideoGenerationJob dV s1 = (s2, Resolved jv) /\
    BullMQ.priority (BullMQ.opts ji) = Some 10%Z /\
    BullMQ.priority (BullMQ.opts jv) = Some 5%Z /\
    broker s2 !! "image-generation" = Some sti' /\
    broker s2 !! "video-generation" = Some stv' /\
    BullMQ.wait sti' = BullMQ.enqueue ji (BullMQ.wait sti) /\
    BullMQ.active sti' = BullMQ.active sti /\
    BullMQ.wait stv' = BullMQ.enqueue jv (BullMQ.wait stv) /\
    BullMQ.active stv' = BullMQ.active stv /\
    (BullMQ.wait sti = [] -> length (BullMQ.active sti) < 2 ->
     exists st, BullMQ.getNextJob (imageWorker r) sti' = Some (ji, st)) /\
    (BullMQ.wait stv = [] -> length (BullMQ.active stv) < 1 ->
     exists st, BullMQ.getNextJob (videoWorker r) stv' = Some (jv, st)).
Proof.
  intros Hi Hv sti stv.
  eexists _, _, _, _, _, _.
  split.
  { unfold addImageGenerationJob. rewrite Hi. unfold on_broker, BullMQ.Queue_add.
    cbn [new_imageQueue BullMQ.queue_name BullMQ.defaultJobOptions].
    fold sti. reflexivity. }
  split.
  { unfold addVideoGenerationJob. cbn [videoQueue with_broker]. rewrite Hv.
    unfold on_broker, BullMQ.Queue_add.
    cbn [new_videoQueue BullMQ.queue_name BullMQ.defaultJobOptions broker with_broker].
    rewrite (lookup_insert_ne (broker s) "image-generation" "video-generation")
      by discriminate.
    fold stv. reflexivity. }
  split; [reflexivity|]. split; [reflexivity|].
  cbn [broker with_broker].
  split; [rewrite lookup_insert_ne by discriminate; apply lookup_insert_eq|].
  split; [apply lookup_insert_eq|].
  do 4 (split; [reflexivity|]).
  split.
  - intros Hw Ha. unfold BullMQ.getNextJob.
    cbn [BullMQ.active BullMQ.wait BullMQ.concurrency imageWorker].
    destruct (Nat.ltb_spec (length (BullMQ.active sti)) 2); [|lia].
    rewrite Hw. cbn. eexists. reflexivity.
  - intros Hw Ha. unfold BullMQ.getNextJob.
    cbn [BullMQ.active BullMQ.wait BullMQ.concurrency videoWorker].
    destruct (Nat.ltb_spec (length (BullMQ.active stv)) 1); [|lia].
    rewrite Hw. cbn. eexists. reflexivity.
Qed.

(** The theorem at the server just started: both jobs are the next of
    their workers. *)
Lemma image_and_video_jobs_are_dispatched_apart_witness :
  exists s1 ji s2 jv sti' stv',
    addImageGenerationJob (ex_data "out-3" IMAGE) ex_started = (s1, Resolved ji) /\
    addVideoGenerationJob (ex_data "out-4" VIDEO) s1 = (s2, Resolved jv) /\
    broker s2 !! "image-generation" = Some sti' /\
    broker s2 !! "video-generation" = Some stv' /\
    (exists st, BullMQ.getNextJob (imageWorker ex_redis) sti' = Some (ji, st)) /\
    (exists st, BullMQ.getNextJob (videoWorker ex_redis) stv' = Some (jv, st)).
Proof.
  destruct (image_and_video_jobs_are_dispatched_apart ex_redis ex_started
              (ex_data "out-3" IMAGE) (ex_data "out-4" VIDEO))
    as (s1 & ji & s2 & jv & sti' & stv' & H1 & H2 & _ & _ & H5 & H6 & _ & _ & _ & _ & H11 & H12).
  - reflexivity.
  - reflexivity.
  - exists s1, ji, s2, jv, sti', stv'.
    split; [exact H1|]. split; [exact H2|]. split; [exact H5|]. split; [exact H6|].
    split; [apply H11; [reflexivity | vm_compute; lia] | apply H12; [reflexivity | vm_compute; lia]].
Defined.

(** C2 as the spec has it fails. The image worker holds two image jobs.
    An image job (row out-3) and a video job (row out-4) are enqueued at
    the same time. The video worker takes the video job and completes
    it, while the image job still waits: its processing has not begun,
    and the only call made to the AI service is the one for the video. *)
Lemma video_job_completes_while_image_job_waits :
  play ex_busy_schedule ex_start = Some ex_busy /\
  ids_in BullMQ.active "image-generation" ex_busy = [1; 2] /\
  ids_in BullMQ.wait "image-generation" ex_busy = [3] /\
  ids_in BullMQ.completed "video-generation" ex_busy = [1] /\
  status_of "out-3" (snd ex_busy) = Some PENDING /\
  status_of "out-4" (snd ex_busy) = Some COMPLETED /\
  url <$> requests (snd ex_busy) = ["http://ai-service:8000/generate/video"].
Proof. split; [reflexivity|]. vm_compute. repeat split; reflexivity. Qed.

(** * Further properties *)

(** ** Redis and the start of the server *)


(** X2. [startServer] listens only when the database and Redis are both
    connected, and then the queues and the two workers are set up. When
    the database connection fails the process exits with code 1 and
    neither Redis nor the queues were touched. When the Redis connection
    fails the process exits with code 1 with the queues undefined and no
    worker started. In both cases the error is logged last. *)
Theorem server_listens_only_when_all_is_set_up PORT REDIS_URL db connect w :
  let s' := fst (fst (startServer_or_exit PORT REDIS_URL db connect (boot, w))) in
  let w' := snd (fst (startServer_or_exit PORT REDIS_URL db connect (boot, w))) in
  let st := snd (startServer_or_exit PORT REDIS_URL db connect (boot, w)) in
  match db, connect with
  | Resolved _, Resolved _ =>
      st = Listening (PORT_or_default PORT) /\
      exists r,
        redis s' = Some r /\
        imageQueue s' = Some (new_imageQueue r) /\
        videoQueue s' = Some (new_videoQueue r) /\
        workers s' = [imageWorker r; videoWorker r]
  | Resolved _, Rejected e =>
      st = Exited 1 /\
      is_Some (redis s') /\
      imageQueue s' = None /\ videoQueue s' = None /\ workers s' = [] /\
      last (logged w') =
        Some {| level := ERROR; text := "Failed to start server:"; detail := Some e |}
  | Rejected e, _ =>
      st = Exited 1 /\
      s' = boot /\
      last (logged w') =
        Some {| level := ERROR; text := "Failed to start server:"; detail := Some e |}
  end.
Proof.
  destruct db as [[]|e], connect as [[]|e'].
  - split; [reflexivity|]. eexists. repeat split; reflexivity.
  - split; [reflexivity|]. split; [eexists; reflexivity|].
    do 3 (split; [reflexivity|]). cbn. apply last_snoc.
  - split; [reflexivity|]. split; [reflexivity|]. cbn. apply last_snoc.
  - split; [reflexivity|]. split; [reflexivity|]. cbn. apply last_snoc.
Qed.

(** ** One attempt, whatever the row and the AI service *)

Lemma attempt_missing_row t r job w :
  generatedOutput w !! outputId (BullMQ.data job) = None ->
  exists lines,
    BullMQ.processJob (worker_of t r) job w =
      ({| generatedOutput := generatedOutput w;
          usageLog := usageLog w;
          sent := sent w;
          logged := logged w ++ lines;
          now := now w;
          AI_SERVICE_URL := AI_SERVICE_URL w;
          service := service w;
          requests := requests w |},
       after_throw job {| message := "Record to update not found." |}).
Proof.
  intros Hrow.
  destruct t; unfold_attempt; rewrite Hrow;
    (eexists; unfold after_throw;
     cbn [BullMQ.attempted BullMQ.opts BullMQ.attemptsMade];
     destruct (BullMQ.attempts (BullMQ.opts job)) as [n|];
     [destruct (S (BullMQ.attemptsMade job) <? n)%nat|];
     cbn; rewrite Hrow; cbn; rewrite <- !app_assoc; reflexivity).
Qed.

Lemma processJob_outcome_attempted wk j w :
  outcome_job (snd (BullMQ.processJob wk j w)) = BullMQ.attempted j.
Proof.
  unfold BullMQ.processJob.
  destruct (BullMQ.processor wk j w) as [w1 [[]|err]]; [reflexivity|].
  cbn [BullMQ.attempted BullMQ.opts BullMQ.attemptsMade].
  destruct (BullMQ.attempts (BullMQ.opts j)) as [n|]; [|reflexivity].
  destruct (S (BullMQ.attemptsMade j) <? n)%nat; reflexivity.
Qed.

(** What every attempt and every wait keeps is kept by the whole life of
    the job. *)
Lemma run_preserves d (P : World -> Prop) wk :
  (forall j w, BullMQ.data j = d -> P w -> P (fst (BullMQ.processJob wk j w))) ->
  (forall ms w, P w -> P (with_delay ms w)) ->
  forall fuel j w, BullMQ.data j = d -> P w -> P (fst (BullMQ.run wk fuel j w)).
Proof.
  intros Hstep Hwait. induction fuel as [|fuel IH]; intros j w Hd HP.
  - rewrite run_unfold. specialize (Hstep j w Hd HP).
    destruct (BullMQ.processJob wk j w) as [w1 [j'|j' e ms|j' e]]; exact Hstep.
  - rewrite run_unfold. specialize (Hstep j w Hd HP).
    pose proof (processJob_outcome_attempted wk j w) as Hj.
    destruct (BullMQ.processJob wk j w) as [w1 [j'|j' e ms|j' e]]; try exact Hstep.
    cbn in Hj, Hstep. apply IH; [subst j'; exact Hd | apply Hwait, Hstep].
Qed.

Lemma attempt_keeps_other_rows t r job w id :
  id <> outputId (BullMQ.data job) ->
  generatedOutput (fst (BullMQ.processJob (worker_of t r) job w)) !! id =
    generatedOutput w !! id.
Proof.
  intros Hne.
  destruct (generatedOutput w !! outputId (BullMQ.data job)) as [row|] eqn:Hrow.
  - destruct (Axios.settle (budget t) (service w (length (requests w))))
      as [el [resp|e]] eqn:Hcall.
    + destruct (attempt_resolved t r job w row el resp Hrow Hcall)
        as (req & lines & _ & Hp).
      rewrite Hp. cbn. apply lookup_insert_ne. congruence.
    + destruct (attempt_rejected t r job w row el e Hrow Hcall)
        as (req & lines & _ & Hp).
      rewrite Hp. cbn. apply lookup_insert_ne. congruence.
  - destruct (attempt_missing_row t r job w Hrow) as (lines & Hp).
    rewrite Hp. reflexivity.
Qed.

(** X3. A job touches the row of its own output only: whatever the AI
    service does and however often the job is tried, every other row of
    [generatedOutput] is after the job what it was before. *)
Theorem job_touches_its_own_row_only t r job w id :
  id <> outputId (BullMQ.data job) ->
  generatedOutput (fst (BullMQ.runJob (worker_of t r) job w)) !! id =
    generatedOutput w !! id.
Proof.
  intros Hne. unfold BullMQ.runJob.
  apply (run_preserves (BullMQ.data job)
           (fun w' => generatedOutput w' !! id = generatedOutput w !! id)).
  - intros j w1 Hd HP. rewrite <- HP.
    apply attempt_keeps_other_rows. rewrite Hd. exact Hne.
  - intros ms w1 HP. exact HP.
  - reflexivity.
  - reflexivity.
Qed.

(** The theorem at a job for out-1 that fails once and then completes,
    in a world that has a row out-2 as well. *)
Lemma job_touches_its_own_row_only_witness :
  generatedOutput
    (fst (BullMQ.runJob (imageWorker ex_redis) ex_image_job
            (ex_world [ex_row "out-1" IMAGE PENDING; ex_row "out-2" IMAGE PENDING]
               fails_once))) !! "out-2" =
    Some (ex_row "out-2" IMAGE PENDING).
Proof.
  etransitivity.
  - apply (job_touches_its_own_row_only IMAGE ex_redis ex_image_job
             (ex_world [ex_row "out-1" IMAGE PENDING; ex_row "out-2" IMAGE PENDING]
                fails_once) "out-2").
    discriminate.
  - reflexivity.
Defined.

(** X4. A job whose row does not exist is rejected by the first update
    of the processor, with the error of the database: the AI service is
    not called, no usage row is written, nothing is sent, and the only
    trace is one line in the log. *)
Theorem job_without_row_is_rejected_before_the_call t r job w :
  generatedOutput w !! outputId (BullMQ.data job) = None ->
  let w' := fst (BullMQ.processor (worker_of t r) job w) in
  snd (BullMQ.processor (worker_of t r) job w) =
    Rejected {| message := "Record to update not found." |} /\
  requests w' = requests w /\
  usageLog w' = usageLog w /\
  sent w' = sent w /\
  generatedOutput w' = generatedOutput w /\
  now w' = now w /\
  exists line,
    logged w' = logged w ++ [line] /\
    level line = ERROR /\
    detail line = Some {| message := "Record to update not found." |}.
Proof.
  intros Hrow.
  destruct t; cbn [worker_of imageWorker videoWorker BullMQ.processor];
    unfold processImageGeneration, processVideoGeneration, try_catch, await,
      updateGenerationStatus, await, Prisma.generatedOutput_update, Logger.error,
      throw;
    rewrite Hrow; cbn; (repeat split; try reflexivity);
    eexists; repeat split; reflexivity.
Qed.

(** The theorem at an image job in a world without rows. *)
Lemma job_without_row_is_rejected_before_the_call_witness :
  processImageGeneration ex_image_job (ex_world [] always_answers) =
    (with_logged [{| level := ERROR; text := "Image generation failed:";
                     detail := Some {| message := "Record to update not found." |} |}]
       (ex_world [] always_answers),
     Rejected {| message := "Record to update not found." |}) /\
  requests (fst (processImageGeneration ex_image_job (ex_world [] always_answers))) = [].
Proof.
  destruct (job_without_row_is_rejected_before_the_call IMAGE ex_redis ex_image_job
              (ex_world [] always_answers)) as (_ & Hreq & _).
  - reflexivity.
  - split; [reflexivity | exact Hreq].
Defined.

(** ** The life of a job, whatever the AI service does *)


(** The two ways a job with a row can end. *)
Lemma job_life_cases t r s d s' job w row :
  queue_of t s = Some (new_queue t r) ->
  add_job t d s = (s', Resolved job) ->
  generatedOutput w !! outputId d = Some row ->
  (exists w' j' e,
     BullMQ.runJob (worker_of t r) job w = (w', BullMQ.Failed j' e) /\
     BullMQ.attemptsMade j' = configured_attempts t /\
     usageLog w' = usageLog w /\
     length (requests w') = length (requests w) + configured_attempts t) \/
  (exists k el resp w' j',
     k < configured_attempts t /\
     BullMQ.runJob (worker_of t r) job w = (w', BullMQ.Completed j') /\
     BullMQ.attemptsMade j' = S k /\
     usageLog w' =
       usageLog w ++ [usage_row t d resp (Math_round_div el 1000)] /\
     length (requests w') = length (requests w) + S k).
Proof.
  intros Hq Hadd Hrow.
  destruct (add_job_inv t r d s s' job Hq Hadd) as (Hd & Ha & Hn).
  subst d. unfold BullMQ.runJob. rewrite Hn. cbn [default].
  assert (HN : configured_attempts t = S (pred (configured_attempts t)))
    by (destruct t; reflexivity).
  destruct (first_resolved t (service w) (length (requests w))
              (configured_attempts t))
    as [Hall | (k & el & resp & Hk & Hbefore & Hok)].
  - left.
    destruct (run_all_rejected t r (configured_attempts t)
                (pred (configured_attempts t))
                (configured_attempts t) job w row) as
      (w' & j' & e & Hrun & Hmade & Hdata & Hout & Hlog & Hsent & Hlast & Hreq & Hsvc);
      try assumption; try lia.
    { intros i Hi. apply Hall. lia. }
    exists w', j', e. rewrite <- HN in Hreq. auto.
  - right.
    destruct (run_resolved_at t r (configured_attempts t) k
                (configured_attempts t) job w row el resp) as
      (w' & j' & row' & Hrun & Hmade & Hdata & Hout & Hlog & Hsent & Hreq & Hsvc);
      try assumption; try lia.
    exists k, el, resp, w', j'. rewrite Ha in Hmade. auto 10.
Qed.

(** X5. The AI service is called once per attempt: when a job with a row
    has reached its outcome, the number of calls made for it is the
    number of attempts made, at least one and at most the configured
    attempts. *)
Theorem one_call_per_attempt t r s d s' job w row :
  queue_of t s = Some (new_queue t r) ->
  add_job t d s = (s', Resolved job) ->
  generatedOutput w !! outputId d = Some row ->
  let w' := fst (BullMQ.runJob (worker_of t r) job w) in
  let made := BullMQ.attemptsMade (outcome_job (snd (BullMQ.runJob (worker_of t r) job w))) in
  length (requests w') = length (requests w) + made /\
  1 <= made <= configured_attempts t.
Proof.
  intros Hq Hadd Hrow.
  destruct (job_life_cases t r s d s' job w row Hq Hadd Hrow)
    as [(w' & j' & e & Hrun & Hmade & _ & Hreq)
       |(k & el & resp & w' & j' & Hk & Hrun & Hmade & _ & Hreq)];
    cbn zeta; rewrite Hrun; cbn [fst snd outcome_job]; rewrite Hmade.
  - split; [exact Hreq | destruct t; cbn; lia].
  - split; [exact Hreq | lia].
Qed.

(** The theorem at an image job whose first call fails and whose second
    call is answered: two calls. *)
Lemma one_call_per_attempt_witness :
  length (requests (fst (BullMQ.runJob (imageWorker ex_redis) ex_image_job
                           (ex_world [ex_row "out-1" IMAGE PENDING] fails_once)))) = 2.
Proof.
  destruct (one_call_per_attempt IMAGE ex_redis ex_started (ex_data "out-1" IMAGE)
              (fst (addImageGenerationJob (ex_data "out-1" IMAGE) ex_started))
              ex_image_job (ex_world [ex_row "out-1" IMAGE PENDING] fails_once)
              (ex_row "out-1" IMAGE PENDING)) as [Hreq _].
  - reflexivity.
  - reflexivity.
  - reflexivity.
  - etransitivity; [exact Hreq | reflexivity].
Defined.

(** X6. Usage is logged for completed jobs only, and once: a job with a
    row appends exactly one row to [usageLog] when it completes, at
    whatever attempt, and none when it fails for good; the rows that were
    there stay as they are. *)
Theorem usage_is_logged_once_iff_completed t r s d s' job w row :
  queue_of t s = Some (new_queue t r) ->
  add_job t d s = (s', Resolved job) ->
  generatedOutput w !! outputId d = Some row ->
  let w' := fst (BullMQ.runJob (worker_of t r) job w) in
  match snd (BullMQ.runJob (worker_of t r) job w) with
  | BullMQ.Completed _ =>
      exists u,
        usageLog w' = usageLog w ++ [u] /\
        ul_userId u = userId d /\ ul_action u = action_of t
  | BullMQ.Failed _ _ => usageLog w' = usageLog w
  | BullMQ.Retrying _ _ _ => False
  end.
Proof.
  intros Hq Hadd Hrow.
  destruct (job_life_cases t r s d s' job w row Hq Hadd Hrow)
    as [(w' & j' & e & Hrun & _ & Hlog & _)
       |(k & el & resp & w' & j' & Hk & Hrun & _ & Hlog & _)];
    cbn zeta; rewrite Hrun; cbn [fst snd].
  - exact Hlog.
  - eexists. split; [exact Hlog|]. split; reflexivity.
Qed.

(** The theorem at an image job whose calls all time out: no usage. *)
Lemma usage_is_logged_once_iff_completed_witness :
  usageLog (fst (BullMQ.runJob (imageWorker ex_redis) ex_image_job
                   (ex_world [ex_row "out-1" IMAGE PENDING] always_hangs))) = [].
Proof.
  pose proof (usage_is_logged_once_iff_completed IMAGE ex_redis ex_started
                (ex_data "out-1" IMAGE)
                (fst (addImageGenerationJob (ex_data "out-1" IMAGE) ex_started))
                ex_image_job (ex_world [ex_row "out-1" IMAGE PENDING] always_hangs)
                (ex_row "out-1" IMAGE PENDING) eq_refl eq_refl eq_refl) as H.
  exact H.
Defined.

Lemma message_after_cons e errs old :
  message_after (e :: errs) old = message_after errs (Some (message e)).
Proof.
  unfold message_after. destruct errs as [|e' errs]; [reflexivity|].
  change (last (e :: e' :: errs)) with (last (e' :: errs)).
  destruct (last (e' :: errs)) eqn:El; [reflexivity|].
  apply last_None in El. discriminate El.
Qed.

(** A job that completes after [k] rejected calls: what its row holds as
    error message. *)
Lemma run_resolved_message t r n k :
  forall fuel job w row el resp,
    BullMQ.attempts (BullMQ.opts job) = Some n ->
    BullMQ.attemptsMade job + k < n ->
    k <= fuel ->
    generatedOutput w !! outputId (BullMQ.data job) = Some row ->
    (forall i, i < k ->
       is_Some (rejection t (service w) (length (requests w) + i))) ->
    Axios.settle (budget t) (service w (length (requests w) + k)) =
      (el, Resolved resp) ->
    exists w' j' row',
      BullMQ.run (worker_of t r) fuel job w = (w', BullMQ.Completed j') /\
      generatedOutput w' !! outputId (BullMQ.data job) = Some row' /\
      go_status row' = COMPLETED /\
      go_errorMessage row' =
        message_after (rejections t (service w) (length (requests w)) k)
          (go_errorMessage row).
Proof.
  induction k as [|k IH]; intros fuel job w row el resp Hn Ha Hfuel Hrow Hrej Hok.
  - rewrite Nat.add_0_r in Hok.
    destruct (attempt_resolved t r job w row el resp Hrow Hok) as (req & lines & _ & Hp).
    rewrite run_unfold, Hp.
    eexists _, _, _. split; [reflexivity|].
    cbn [generatedOutput]. split; [apply lookup_insert_eq|].
    split; reflexivity.
  - destruct (Hrej 0 ltac:(lia)) as [e He].
    rewrite Nat.add_0_r in He.
    destruct (rejection_settle _ _ _ _ He) as [el' Hel].
    destruct (attempt_rejected t r job w row el' e Hrow Hel) as (req & lines & _ & Hp).
    destruct fuel as [|fuel]; [lia|].
    rewrite run_unfold, Hp, (after_throw_retry job e n Hn ltac:(lia)).
    match goal with |- context [BullMQ.run _ _ ?j ?w1] =>
      destruct (IH fuel j w1 (failed_row (message e) row) el resp) as
        (w' & j' & row' & Hrun & Hout & Hst & Hmsg)
    end.
    + exact Hn.
    + cbn. lia.
    + lia.
    + cbn. apply lookup_insert_eq.
    + intros i Hi. cbn. rewrite length_app. cbn.
      replace (length (requests w) + 1 + i) with (length (requests w) + S i) by lia.
      apply Hrej. lia.
    + cbn. rewrite length_app. cbn.
      replace (length (requests w) + 1 + k) with (length (requests w) + S k) by lia.
      exact Hok.
    + cbn [generatedOutput requests service with_delay BullMQ.attempted BullMQ.data
           go_errorMessage failed_row] in Hout, Hmsg.
      rewrite length_app in Hmsg. cbn [length] in Hmsg.
      replace (length (requests w) + 1) with (S (length (requests w))) in Hmsg by lia.
      exists w', j', row'. split; [exact Hrun|]. split; [exact Hout|].
      split; [exact Hst|].
      rewrite (rejections_cons _ _ _ _ _ He), message_after_cons. exact Hmsg.
Qed.

(** X7. Success does not clear the error message. When a job completes
    after one or more failed attempts, its row is COMPLETED and still
    holds, as [errorMessage], the message of the last failed attempt;
    when it completes at the first attempt, [errorMessage] is what it was
    before the job. *)
Theorem completed_row_keeps_the_last_error_message t r s d s' job w row k latency resp :
  queue_of t s = Some (new_queue t r) ->
  add_job t d s = (s', Resolved job) ->
  generatedOutput w !! outputId d = Some row ->
  k < configured_attempts t ->
  (forall i, i < k ->
     is_Some (rejection t (service w) (length (requests w) + i))) ->
  service w (length (requests w) + k) = Responds latency resp ->
  (latency < budget t)%Z ->
  exists row',
    generatedOutput (fst (BullMQ.runJob (worker_of t r) job w)) !! outputId d =
      Some row' /\
    go_status row' = COMPLETED /\
    match last (rejections t (service w) (length (requests w)) k) with
    | Some e => 0 < k /\ go_errorMessage row' = Some (message e)
    | None => k = 0 /\ go_errorMessage row' = go_errorMessage row
    end.
Proof.
  intros Hq Hadd Hrow Hk Hrej Hsvc Hlat.
  destruct (add_job_inv t r d s s' job Hq Hadd) as (Hd & Ha & Hn).
  subst d.
  assert (Hok : Axios.settle (budget t) (service w (length (requests w) + k)) =
                  (latency, Resolved resp)).
  { rewrite Hsvc. cbn. destruct (Z.ltb_spec latency (budget t)); [reflexivity | lia]. }
  destruct (run_resolved_message t r (configured_attempts t) k
              (configured_attempts t) job w row latency resp) as
    (w' & j' & row' & Hrun & Hout & Hst & Hmsg);
    try assumption; try lia.
  assert (Hr : BullMQ.runJob (worker_of t r) job w = (w', BullMQ.Completed j'))
    by (unfold BullMQ.runJob; rewrite Hn; exact Hrun).
  exists row'. rewrite Hr.
  split; [exact Hout|]. split; [exact Hst|].
  pose proof (rejections_length t (service w) (length (requests w)) k Hrej) as Hlen.
  unfold message_after in Hmsg.
  destruct (last (rejections t (service w) (length (requests w)) k)) as [e|] eqn:El.
  - split; [|exact Hmsg]. destruct k; [discriminate El | lia].
  - split; [|exact Hmsg]. apply last_None in El. rewrite El in Hlen. cbn in Hlen. lia.
Qed.

(** The theorem at an image job whose first call fails with status 500
    and whose second call is answered. *)
Lemma completed_row_keeps_the_last_error_message_witness :
  exists row',
    generatedOutput (fst (BullMQ.runJob (imageWorker ex_redis) ex_image_job
                            (ex_world [ex_row "out-1" IMAGE PENDING] fails_once)))
      !! "out-1" = Some row' /\
    go_status row' = COMPLETED /\
    go_errorMessage row' = Some "Request failed with status code 500".
Proof.
  destruct (completed_row_keeps_the_last_error_message IMAGE ex_redis ex_started
              (ex_data "out-1" IMAGE)
              (fst (addImageGenerationJob (ex_data "out-1" IMAGE) ex_started))
              ex_image_job (ex_world [ex_row "out-1" IMAGE PENDING] fails_once)
              (ex_row "out-1" IMAGE PENDING) 1 2500%Z ex_response)
    as (row' & Hout & Hst & Hmsg).
  - reflexivity.
  - reflexivity.
  - reflexivity.
  - cbn. lia.
  - intros i Hi. replace i with 0 by lia. eexists. reflexivity.
  - reflexivity.
  - reflexivity.
  - exists row'. split; [exact Hout|]. split; [exact Hst|]. apply Hmsg.
Defined.

(** ** How long a job takes *)








(** ** Order and retention in the queues *)

Lemma enqueue_back j l :
  Forall (fun k => (BullMQ.rank k <= BullMQ.rank j)%Z) l ->
  BullMQ.enqueue j l = l ++ [j].
Proof.
  induction l as [|k l IH]; intros H; [reflexivity|].
  apply Forall_cons in H. destruct H as [Hk Hl]. cbn.
  destruct (Z.leb_spec (BullMQ.rank k) (BullMQ.rank j)); [|lia].
  rewrite (IH Hl). reflexivity.
Qed.

Lemma remove_Forall (P : BullMQ.Job -> Prop) j l :
  Forall P l -> Forall P (BullMQ.remove j l).
Proof.
  intros H. unfold BullMQ.remove. rewrite Forall_forall in *.
  intros k Hk. apply list_elem_of_filter in Hk. apply H, Hk.
Qed.

Lemma keep_length n j l : length (BullMQ.keep (Some n) (j :: l)) <= n.
Proof. cbn [BullMQ.keep]. rewrite length_take. lia. Qed.

Lemma Queue_add_queue_ok t r nm d p b :
  job_options t = BullMQ.spread (BullMQ.defaultJobOptions (new_queue t r)) p ->
  queues_ok b ->
  queues_ok (fst (BullMQ.Queue_add (new_queue t r) nm d p b)).
Proof.
  intros Hopts Hok t' st' Hst'. unfold BullMQ.Queue_add in Hst'. cbn in Hst'.
  destruct (decide (BullMQ.queue_name (new_queue t r) = queue_name_of t')) as [He|Hne].
  - assert (t' = t) by (destruct t, t'; cbn in He; congruence). subst t'.
    rewrite He, lookup_insert_eq in Hst'. inversion Hst'; subst. clear Hst'.
    rewrite <- He.
    assert (Hst : queue_ok t (default BullMQ.empty_store
                                (b !! BullMQ.queue_name (new_queue t r)))).
    { destruct (b !! BullMQ.queue_name (new_queue t r)) as [st|] eqn:E; cbn.
      - apply (Hok t). rewrite <- He. exact E.
      - split; [apply Forall_nil_2 | destruct t; cbn; lia]. }
    destruct Hst as (Hall & Hc & Hf).
    split; [|split; assumption].
    unfold in_queue in *. cbn [BullMQ.wait BullMQ.delayed BullMQ.active].
    rewrite enqueue_perm. apply Forall_cons. split; [|exact Hall].
    cbn. symmetry. exact Hopts.
  - rewrite lookup_insert_ne in Hst' by exact Hne. apply (Hok t' st' Hst').
Qed.

Lemma worker_move_queue_ok t wk m b w b' w' st' :
  BullMQ.worker_move wk m (b, w) = Some (b', w') ->
  (forall st, b !! BullMQ.worker_name wk = Some st -> queue_ok t st) ->
  b' !! BullMQ.worker_name wk = Some st' ->
  queue_ok t st'.
Proof.
  unfold BullMQ.worker_move. intros Hmove Hok Hst'.
  destruct (b !! BullMQ.worker_name wk) as [st|] eqn:Hst; [|discriminate].
  destruct (Hok st eq_refl) as (Hall & Hc & Hf).
  unfold in_queue in Hall. rewrite !Forall_app in Hall.
  destruct Hall as (Hwait & Hdel & Hact).
  destruct m as [|n|n].
  - unfold BullMQ.getNextJob in Hmove.
    destruct (length (BullMQ.active st) <? BullMQ.concurrency wk)%nat; [|discriminate].
    destruct (BullMQ.wait st) as [|j rest] eqn:Hw; [discriminate|].
    inversion Hmove; subst. unfold BullMQ.set_store in Hst'.
    rewrite lookup_insert_eq in Hst'. inversion Hst'; subst.
    apply Forall_cons in Hwait. destruct Hwait as [Hj Hrest].
    split; [|split; assumption].
    unfold in_queue. cbn. rewrite !Forall_app. repeat split; auto.
  - destruct (List.find (BullMQ.has_id n) (BullMQ.active st)) as [j|] eqn:Hfind;
      [|discriminate].
    apply find_has_id in Hfind. destruct Hfind as [Hin _].
    pose proof (processJob_outcome_attempted wk j w) as Hoj.
    destruct (BullMQ.processJob wk j w) as [w1 o]. cbn in Hoj.
    inversion Hmove; subst. unfold BullMQ.set_store in Hst'.
    rewrite lookup_insert_eq in Hst'. inversion Hst'; subst. clear Hst'.
    assert (Hj : BullMQ.opts (outcome_job o) = job_options t).
    { rewrite Hoj. cbn. rewrite Forall_forall in Hact. apply Hact, Hin. }
    destruct o as [j'|j' e ms|j' e]; cbn [outcome_job] in *;
      unfold queue_ok, in_queue; cbn [BullMQ.moveToFinished BullMQ.wait BullMQ.delayed
        BullMQ.active BullMQ.completed BullMQ.failed]; rewrite !Forall_app.
    + rewrite Hj. repeat split; auto using remove_Forall.
      destruct t; apply keep_length.
    + repeat split; auto using remove_Forall.
    + rewrite Hj. repeat split; auto using remove_Forall.
      destruct t; apply keep_length.
  - destruct (List.find (BullMQ.has_id n) (BullMQ.delayed st)) as [j|] eqn:Hfind;
      [|discriminate].
    apply find_has_id in Hfind. destruct Hfind as [Hin _].
    inversion Hmove; subst. unfold BullMQ.set_store in Hst'.
    rewrite lookup_insert_eq in Hst'. inversion Hst'; subst. clear Hst'.
    split; [|split; assumption].
    unfold in_queue. cbn. rewrite enqueue_perm, !Forall_app.
    repeat split; auto using remove_Forall.
    apply Forall_cons. split; [|exact Hwait].
    rewrite Forall_forall in Hdel. apply Hdel, Hin.
Qed.

Lemma act_queues_ok a s w s' w' :
  act a (s, w) = Some (s', w') ->
  server_inv s -> queues_ok (broker s) -> queues_ok (broker s').
Proof.
  intros Hact (r & Hr & Hi & Hv & Hw & _) Hok.
  destruct a as [d|d|i m]; unfold act in Hact.
  - inversion Hact; subst. unfold addImageGenerationJob. rewrite Hi.
    unfold on_broker.
    destruct (BullMQ.Queue_add (new_imageQueue r) "generate-image" d
                (priority_only 10) (broker s)) as [b res] eqn:E. cbn.
    replace b with (fst (BullMQ.Queue_add (new_queue IMAGE r) "generate-image" d
                           (priority_only 10) (broker s)))
      by (change (new_queue IMAGE r) with (new_imageQueue r); rewrite E; reflexivity).
    apply (Queue_add_queue_ok IMAGE); [reflexivity | exact Hok].
  - inversion Hact; subst. unfold addVideoGenerationJob. rewrite Hv.
    unfold on_broker.
    destruct (BullMQ.Queue_add (new_videoQueue r) "generate-video" d
                (priority_only 5) (broker s)) as [b res] eqn:E. cbn.
    replace b with (fst (BullMQ.Queue_add (new_queue VIDEO r) "generate-video" d
                           (priority_only 5) (broker s)))
      by (change (new_queue VIDEO r) with (new_videoQueue r); rewrite E; reflexivity).
    apply (Queue_add_queue_ok VIDEO); [reflexivity | exact Hok].
  - rewrite Hw in Hact.
    destruct i as [|[|i]]; cbn [lookup list_lookup] in Hact; [| |discriminate].
    + destruct (BullMQ.worker_move (imageWorker r) m (broker s, w))
        as [[b w1]|] eqn:E; [|discriminate].
      inversion Hact; subst. cbn. intros [] st' Hst'.
      * apply (worker_move_queue_ok IMAGE _ _ _ _ _ _ _ E); [|exact Hst'].
        intros st Hst. apply (Hok IMAGE st Hst).
      * rewrite (worker_move_elsewhere _ _ _ _ _ _ _ E) in Hst' by discriminate.
        apply (Hok VIDEO st' Hst').
    + destruct (BullMQ.worker_move (videoWorker r) m (broker s, w))
        as [[b w1]|] eqn:E; [|discriminate].
      inversion Hact; subst. cbn. intros [] st' Hst'.
      * rewrite (worker_move_elsewhere _ _ _ _ _ _ _ E) in Hst' by discriminate.
        apply (Hok IMAGE st' Hst').
      * apply (worker_move_queue_ok VIDEO _ _ _ _ _ _ _ E); [|exact Hst'].
        intros st Hst. apply (Hok VIDEO st Hst).
Qed.

Lemma play_queues_ok l :
  forall sw sw',
    play l sw = Some sw' ->
    server_inv (fst sw) -> queues_ok (broker (fst sw)) ->
    queues_ok (broker (fst sw')).
Proof.
  induction l as [|a l IH]; intros [s w] [s' w'] Hplay Hinv Hok; cbn [play] in Hplay.
  - inversion Hplay; subst. exact Hok.
  - destruct (act a (s, w)) as [[s1 w1]|] eqn:E; [|discriminate].
    apply (IH (s1, w1) (s', w') Hplay); cbn.
    + apply (act_inv _ _ _ _ _ E Hinv).
    + apply (act_queues_ok _ _ _ _ _ E Hinv Hok).
Qed.

Lemma reachable_queues_ok sw : reachable sw -> queues_ok (broker (fst sw)).
Proof.
  intros (url & w0 & sw0 & l & Hstart & Hplay).
  destruct (startServer_inv _ _ _ Hstart) as (r & Hs).
  apply (play_queues_ok l sw0 sw Hplay); rewrite Hs.
  - exists r. cbn. repeat split; intros st Hst; rewrite lookup_empty in Hst; discriminate.
  - intros t st Hst. cbn in Hst. rewrite lookup_empty in Hst. discriminate.
Qed.

(** X9. The queues are first in, first out. In every state the server
    reaches, all the jobs of a queue have the priority its dispatcher
    sets, so a new job is put behind all the jobs that wait in its
    queue, which keep their order; its id is not the id of any job the
    queue holds; and the worker takes the job at the front. *)
Theorem new_job_waits_behind_the_others t sw d :
  reachable sw ->
  let st := default BullMQ.empty_store (broker (fst sw) !! queue_name_of t) in
  exists s' j st',
    add_job t d (fst sw) = (s', Resolved j) /\
    broker s' !! queue_name_of t = Some st' /\
    BullMQ.wait st' = BullMQ.wait st ++ [j] /\
    BullMQ.active st' = BullMQ.active st /\
    (BullMQ.id j ∉ held st) /\
    forall wk k st2,
      BullMQ.getNextJob wk st' = Some (k, st2) -> head (BullMQ.wait st ++ [j]) = Some k.
Proof.
  intros Hreach st.
  destruct (reachable_inv sw Hreach) as (r & Hr & Hi & Hv & Hw & _).
  pose proof (reachable_queues_ok sw Hreach) as Hok.
  pose proof (reachable_ok sw Hreach) as Hids.
  assert (Hst : queue_ok t st /\ store_ok st).
  { subst st. destruct (broker (fst sw) !! queue_name_of t) as [st0|] eqn:E; cbn.
    - split; [apply (Hok t st0 E) | apply (Hids _ st0 E)].
    - split; [split; [apply Forall_nil_2 | destruct t; cbn; lia]
             | split; [apply NoDup_nil_2 | apply Forall_nil_2]]. }
  destruct Hst as [(Hall & _) (_ & Hle)].
  assert (Hq : queue_of t (fst sw) = Some (new_queue t r)) by (destruct t; assumption).
  assert (Hadd : exists j,
    add_job t d (fst sw) =
      (with_broker
         (<[queue_name_of t :=
              {| BullMQ.counter := S (BullMQ.counter st);
                 BullMQ.wait := BullMQ.enqueue j (BullMQ.wait st);
                 BullMQ.delayed := BullMQ.delayed st;
                 BullMQ.active := BullMQ.active st;
                 BullMQ.completed := BullMQ.completed st;
                 BullMQ.failed := BullMQ.failed st |}]> (broker (fst sw)))
         (fst sw), Resolved j) /\
    BullMQ.opts j = job_options t /\ BullMQ.id j = S (BullMQ.counter st)).
  { destruct t; cbn in Hq |- *;
      unfold addImageGenerationJob, addVideoGenerationJob; rewrite Hq;
      unfold on_broker, BullMQ.Queue_add; cbn; eexists; repeat split; reflexivity. }
  destruct Hadd as (j & Hadd & Hopts & Hid).
  eexists _, j, _. split; [exact Hadd|].
  cbn [broker with_broker]. split; [apply lookup_insert_eq|].
  cbn [BullMQ.wait BullMQ.active].
  assert (Hback : BullMQ.enqueue j (BullMQ.wait st) = BullMQ.wait st ++ [j]).
  { apply enqueue_back. unfold in_queue in Hall. rewrite !Forall_app in Hall.
    destruct Hall as (Hwait & _). eapply Forall_impl; [exact Hwait|].
    intros k Hk. cbn in Hk. unfold BullMQ.rank. rewrite Hk, Hopts. lia. }
  split; [exact Hback|]. split; [reflexivity|]. split.
  - intros Hin. rewrite Forall_forall in Hle. specialize (Hle _ Hin). lia.
  - intros wk k st2 Hnext. unfold BullMQ.getNextJob in Hnext.
    cbn [BullMQ.active BullMQ.wait] in Hnext. rewrite Hback in Hnext.
    destruct (length (BullMQ.active st) <? BullMQ.concurrency wk)%nat; [|discriminate].
    destruct (BullMQ.wait st ++ [j]) as [|k' rest]; [discriminate|].
    inversion Hnext; subst. reflexivity.
Qed.

(** The theorem at the server whose image worker holds jobs 1 and 2
    while job 3 waits: job 4 is put behind job 3. *)
Lemma new_job_waits_behind_the_others_witness :
  exists s' j st',
    addImageGenerationJob (ex_data "out-4" IMAGE) (fst ex_saturated) = (s', Resolved j) /\
    broker s' !! "image-generation" = Some st' /\
    BullMQ.id <$> BullMQ.wait st' = [3; 4].
Proof.
  destruct (new_job_waits_behind_the_others IMAGE ex_saturated (ex_data "out-4" IMAGE))
    as (s' & j & st' & Hadd & Hst & Hwait & _ & _ & _).
  - exists None, ex_busy_world, ex_start, ex_saturating_schedule. split; reflexivity.
  - exists s', j, st'. split; [exact Hadd|]. split; [exact Hst|].
    rewrite Hwait, fmap_app.
    assert (Hj : BullMQ.id j = 4).
    { change (add_job IMAGE (ex_data "out-4" IMAGE) (fst ex_saturated))
        with (addImageGenerationJob (ex_data "out-4" IMAGE) (fst ex_saturated)) in Hadd.
      assert (Hs : snd (addImageGenerationJob (ex_data "out-4" IMAGE) (fst ex_saturated)) =
                   Resolved j) by (rewrite Hadd; reflexivity).
      vm_compute in Hs. inversion Hs. reflexivity. }
    cbn [fmap list_fmap]. rewrite Hj. reflexivity.
Defined.

(** X10. The queues retain a bounded number of finished jobs: in every
    state the server reaches, the image queue keeps at most 10 completed
    and 20 failed jobs and the video queue at most 5 completed and 10
    failed jobs. *)
Theorem finished_jobs_are_retained_within_limits sw :
  reachable sw ->
  length (ids_in BullMQ.completed "image-generation" sw) <= 10 /\
  length (ids_in BullMQ.failed "image-generation" sw) <= 20 /\
  length (ids_in BullMQ.completed "video-generation" sw) <= 5 /\
  length (ids_in BullMQ.failed "video-generation" sw) <= 10.
Proof.
  intros Hreach. pose proof (reachable_queues_ok sw Hreach) as Hok.
  unfold ids_in.
  pose proof (Hok IMAGE) as Hi. pose proof (Hok VIDEO) as Hv. cbn in Hi, Hv.
  destruct (broker (fst sw) !! "image-generation") as [sti|];
    destruct (broker (fst sw) !! "video-generation") as [stv|];
    try (destruct (Hi sti eq_refl) as (_ & ? & ?));
    try (destruct (Hv stv eq_refl) as (_ & ? & ?));
    rewrite ?length_fmap; cbn in *; repeat split; lia.
Qed.

(** The theorem at the server after a video job completed. *)
Lemma finished_jobs_are_retained_within_limits_witness :
  ids_in BullMQ.completed "video-generation" ex_busy = [1] /\
  length (ids_in BullMQ.completed "video-generation" ex_busy) <= 5.
Proof.
  split; [reflexivity|].
  apply (finished_jobs_are_retained_within_limits ex_busy).
  exists None, ex_busy_world, ex_start, ex_busy_schedule. split; reflexivity.
Defined.

(** ** Sockets *)

Lemma user_room_inj a b : "user-" +:+ a = "user-" +:+ b -> a = b.
Proof. intros H. cbv [String.append] in H. inversion H. reflexivity. Qed.

(** X11. The room a socket joins with [join-room] for a user id is the
    room [notifyUser] addresses for that user id, and the rooms of
    different user ids are different. So after a socket has joined for
    [u], it hears every notification for [u], and it hears a notification
    for another user only if it had joined that room before. Nothing is
    asked of the socket to join: any socket can join for any user id. *)
Theorem socket_hears_the_users_it_joined rooms w socketId u u' event data w0 :
  let rooms' := fst (socket_join_room socketId u (rooms, w)) in
  exists e,
    sent (fst (notifyUser u' event data w0)) = sent w0 ++ [e] /\
    (hears rooms' socketId e <-> u' = u \/ hears rooms socketId e).
Proof.
  cbn zeta. eexists. split; [reflexivity|].
  unfold hears, socket_join_room. cbn [fst room]. rewrite lookup_insert_eq. split.
  - intros (joined & Hj & Hin). inversion Hj; subst. clear Hj.
    apply elem_of_union in Hin. destruct Hin as [Hin|Hin].
    + right. destruct (rooms !! socketId) as [old|]; cbn in Hin.
      * exists old. split; [reflexivity | exact Hin].
      * apply not_elem_of_empty in Hin. contradiction.
    + left. apply elem_of_singleton in Hin. apply user_room_inj, Hin.
  - intros [->|(joined & Hj & Hin)]; eexists; (split; [reflexivity|]).
    + apply elem_of_union_r, elem_of_singleton. reflexivity.
    + rewrite Hj. cbn. apply elem_of_union_l, Hin.
Qed.

(** ** The auth slice of the front end *)

Lemma or_else_not_empty message fallback :
  fallback <> "" -> AuthSlice.or_else message fallback <> "".
Proof.
  intros Hf. unfold AuthSlice.or_else, AuthSlice.or_null.
  destruct message as [s|]; [|exact Hf].
  destruct (String.eqb_spec s ""); [exact Hf | assumption].
Qed.

(** X12. The reducer keeps the signed-in state complete: after any
    sequence of actions from the initial state, if [isAuthenticated] is
    true then there is a user and there is a token. *)
Theorem signed_in_state_has_user_and_token cookie actions :
  let s := foldl AuthSlice.reducer (AuthSlice.initialState cookie) actions in
  AuthSlice.isAuthenticated s = true ->
  is_Some (AuthSlice.user s) /\ is_Some (AuthSlice.token s).
Proof.
  cbn zeta.
  assert (H : forall s,
    (AuthSlice.isAuthenticated s = true ->
     is_Some (AuthSlice.user s) /\ is_Some (AuthSlice.token s)) ->
    AuthSlice.isAuthenticated (foldl AuthSlice.reducer s actions) = true ->
    is_Some (AuthSlice.user (foldl AuthSlice.reducer s actions)) /\
    is_Some (AuthSlice.token (foldl AuthSlice.reducer s actions))).
  { induction actions as [|a actions IH]; intros s Hs; [exact Hs|].
    cbn [foldl]. apply IH.
    destruct a as [|payload| |u t|p| |u t|p| |u t|p| | |p|];
      try exact Hs; try (cbn; discriminate); try (cbn; intros _; split; eauto; fail).
    unfold AuthSlice.reducer.
    destruct (AuthSlice.user s) as [u|] eqn:Eu; [|intros Ha; rewrite Eu; auto].
    cbn. intros Hauth. destruct (Hs Hauth) as [_ Ht]. split; [eauto | exact Ht]. }
  apply H. cbn. discriminate.
Qed.

(** The theorem after a sign-in and a change of the user's name. *)
Lemma signed_in_state_has_user_and_token_witness :
  let s := foldl AuthSlice.reducer (AuthSlice.initialState None)
             [AuthSlice.login_pending; AuthSlice.login_fulfilled ex_user "tok";
              AuthSlice.clearError] in
  AuthSlice.isAuthenticated s = true /\
  is_Some (AuthSlice.user s) /\ is_Some (AuthSlice.token s).
Proof.
  cbn zeta. split; [reflexivity|].
  apply (signed_in_state_has_user_and_token None
           [AuthSlice.login_pending; AuthSlice.login_fulfilled ex_user "tok";
            AuthSlice.clearError]).
  reflexivity.
Defined.



(** X14. Signing out always ends signed out, whatever the server
    answers: the user and the token are gone from the state, the cookie
    is removed, and the state is no longer loading; only the error tells
    the two answers apart. A failed sign-in, on the contrary, changes
    neither the user, the token, the cookie nor whether the state is
    authenticated. The error it sets is never the empty string. *)
Theorem sign_out_always_signs_out reply failure c :
  AuthSlice.logout reply c =
    {| AuthSlice.state :=
         {| AuthSlice.user := None; AuthSlice.token := None;
            AuthSlice.isAuthenticated := false; AuthSlice.loading := false;
            AuthSlice.error :=
              match reply with
              | AuthSlice.Ok _ => None
              | AuthSlice.Err m => Some (AuthSlice.or_else m "Logout failed")
              end |};
       AuthSlice.cookie := None |} /\
  (let c' := AuthSlice.login (AuthSlice.Err failure) c in
   AuthSlice.user (AuthSlice.state c') = AuthSlice.user (AuthSlice.state c) /\
   AuthSlice.token (AuthSlice.state c') = AuthSlice.token (AuthSlice.state c) /\
   AuthSlice.isAuthenticated (AuthSlice.state c') =
     AuthSlice.isAuthenticated (AuthSlice.state c) /\
   AuthSlice.cookie c' = AuthSlice.cookie c /\
   AuthSlice.loading (AuthSlice.state c') = false /\
   exists message,
     AuthSlice.error (AuthSlice.state c') = Some message /\ message <> "").
Proof.
  split.
  - destruct reply as [[]|m]; reflexivity.
  - cbn. repeat split. eexists. split; [reflexivity|].
    apply or_else_not_empty. discriminate.
Qed.

(** X15. Without a cookie, the check of the session does not call the
    server: whatever the server would answer, it ends signed out with the
    error Authentication failed (the message No token found of the thrown
    error is never shown). *)
Theorem check_without_cookie_fails me c :
  AuthSlice.or_null (AuthSlice.cookie c) = None ->
  AuthSlice.checkAuth me c =
    {| AuthSlice.state :=
         {| AuthSlice.user := None; AuthSlice.token := None;
            AuthSlice.isAuthenticated := false; AuthSlice.loading := false;
            AuthSlice.error := Some "Authentication failed" |};
       AuthSlice.cookie := None |}.
Proof.
  intros H. unfold AuthSlice.checkAuth. cbn. rewrite H. reflexivity.
Qed.

(** The theorem at a page loaded with an empty cookie. *)
Lemma check_without_cookie_fails_witness :
  AuthSlice.error
    (AuthSlice.state
       (AuthSlice.checkAuth (AuthSlice.Ok ex_user) (AuthSlice.loaded (Some "")))) =
    Some "Authentication failed".
Proof.
  rewrite (check_without_cookie_fails (AuthSlice.Ok ex_user) (AuthSlice.loaded (Some ""))).
  - reflexivity.
  - reflexivity.
Defined.

(** ** Authentication in the back end *)

Lemma substring_all s : String.substring 0 (String.length s) s = s.
Proof. induction s as [|c s IH]; cbn; [reflexivity | rewrite IH; reflexivity]. Qed.

Lemma substring7_bearer tok : Auth.substring7 ("Bearer " +:+ tok) = tok.
Proof.
  unfold Auth.substring7. cbv [String.append]. cbn [String.length].
  replace (S (S (S (S (S (S (S (String.length tok))))))) - 7) with (String.length tok)
    by lia.
  cbn [String.substring]. apply substring_all.
Qed.

Lemma bearer_split h :
  String.prefix "Bearer " h = true -> h = "Bearer " +:+ Auth.substring7 h.
Proof.
  intros H.
  do 7 (destruct h as [|? h]; [discriminate H|];
        cbn [String.prefix] in H;
        match type of H with
        | (if ?d then _ else _) = true => destruct d; [subst | discriminate H]
        end).
  change ("Bearer " +:+ h = "Bearer " +:+ Auth.substring7 ("Bearer " +:+ h)).
  rewrite substring7_bearer. reflexivity.
Qed.

Lemma bearer_prefix tok : String.prefix "Bearer " ("Bearer " +:+ tok) = true.
Proof.
  cbv [String.append]. cbn [String.prefix].
  repeat (match goal with |- (if ?d then _ else _) = true =>
            destruct d; [|congruence] end).
  destruct tok; reflexivity.
Qed.

Lemma authenticate_admits env db authorization ru :
  Auth.authenticate env db authorization = Auth.next ru ->
  exists tok secret session u,
    authorization = Some ("Bearer " +:+ tok) /\
    Auth.JWT_SECRET env = Some secret /\ secret <> "" /\
    Auth.jwt_verify env tok secret = true /\
    Auth.sessions db !! tok = Some session /\
    Auth.users db !! Auth.userId session = Some u /\
    Auth.session_isActive session = true /\
    (Auth.Date_now env <= Auth.expiresAt session)%Z /\
    Auth.isActive u = true /\
    ru = Some {| Auth.req_id := Auth.id u; Auth.req_email := Auth.email u;
                 Auth.req_username := Auth.username u |}.
Proof.
  unfold Auth.authenticate, Auth.findSession, Auth.configured.
  destruct authorization as [h|]; [|discriminate].
  destruct (String.prefix "Bearer " h) eqn:Hp; cbn [negb]; [|discriminate].
  destruct (Auth.JWT_SECRET env) as [secret|] eqn:Hs; [|discriminate].
  destruct (String.eqb_spec secret ""); [discriminate|].
  destruct (Auth.jwt_verify env (Auth.substring7 h) secret) eqn:Hv;
    cbn [negb]; [|discriminate].
  destruct (Auth.sessions db !! Auth.substring7 h) as [session|] eqn:Hsess;
    [|discriminate].
  destruct (Auth.users db !! Auth.userId session) as [u|] eqn:Hu; [|discriminate].
  destruct (Auth.session_isActive session) eqn:Ha; cbn [negb orb]; [|discriminate].
  destruct (Z.ltb_spec (Auth.expiresAt session) (Auth.Date_now env)); [discriminate|].
  destruct (Auth.isActive u) eqn:Hact; cbn [negb]; [|discriminate].
  intros Hn. inversion Hn; subst.
  exists (Auth.substring7 h), secret, session, u.
  rewrite <- (bearer_split h Hp). auto 10.
Qed.

Lemma authenticate_unfold env db tok :
  Auth.authenticate env db (Some ("Bearer " +:+ tok)) =
  match Auth.configured (Auth.JWT_SECRET env) with
  | None => Auth.next_error (Auth.createError "JWT secret not configured" 500)
  | Some secret =>
      if negb (Auth.jwt_verify env tok secret)
      then Auth.next_error (Auth.createError "Invalid token" 401)
      else
        match Auth.findSession db tok with
        | None => Auth.next_error (Auth.createError "Invalid or expired token" 401)
        | Some (session, u) =>
            if negb (Auth.session_isActive session)
               || (Auth.expiresAt session <? Auth.Date_now env)%Z
            then Auth.next_error (Auth.createError "Invalid or expired token" 401)
            else if negb (Auth.isActive u)
            then Auth.next_error (Auth.createError "Account is deactivated" 401)
            else Auth.next (Some {| Auth.req_id := Auth.id u;
                                    Auth.req_email := Auth.email u;
                                    Auth.req_username := Auth.username u |})
        end
  end.
Proof.
  unfold Auth.authenticate. rewrite bearer_prefix, substring7_bearer. reflexivity.
Qed.

Lemma authenticate_no_bearer env db db' authorization :
  match authorization with
  | Some h => String.prefix "Bearer " h = false
  | None => True
  end ->
  Auth.authenticate env db' authorization = Auth.authenticate env db authorization.
Proof.
  unfold Auth.authenticate. destruct authorization as [h|]; [|reflexivity].
  intros ->. reflexivity.
Qed.

(** X16. What lets a request in. [authenticate] calls [next()] exactly
    when the Authorization header is Bearer and a token, JWT_SECRET is set
    and not empty, the token verifies, a session with this token exists,
    is active and has not expired, and its user is active. Then [req.user]
    is the id, email and username of the user of the session in the
    database, not what the token says. In every other case it calls
    [next(error)]. *)
Theorem authenticate_lets_in_exactly_live_sessions env db authorization ru :
  Auth.authenticate env db authorization = Auth.next ru <->
  exists tok secret session u,
    authorization = Some ("Bearer " +:+ tok) /\
    Auth.JWT_SECRET env = Some secret /\ secret <> "" /\
    Auth.jwt_verify env tok secret = true /\
    Auth.sessions db !! tok = Some session /\
    Auth.users db !! Auth.userId session = Some u /\
    Auth.session_isActive session = true /\
    (Auth.Date_now env <= Auth.expiresAt session)%Z /\
    Auth.isActive u = true /\
    ru = Some {| Auth.req_id := Auth.id u; Auth.req_email := Auth.email u;
                 Auth.req_username := Auth.username u |}.
Proof.
  split; [apply authenticate_admits|].
  unfold Auth.authenticate, Auth.findSession, Auth.configured.
  - intros (tok & secret & session & u & -> & Hs & Hne & Hv & Hsess & Hu & Ha & Hexp & Hact & ->).
    rewrite bearer_prefix, substring7_bearer, Hs. cbn [negb].
    destruct (String.eqb_spec secret ""); [contradiction|].
    rewrite Hv, Hsess, Hu, Ha. cbn [negb orb].
    destruct (Z.ltb_spec (Auth.expiresAt session) (Auth.Date_now env)); [lia|].
    rewrite Hact. reflexivity.
Qed.

(** The theorem at a live session, at the very millisecond it expires. *)
Lemma authenticate_lets_in_exactly_live_sessions_witness :
  Auth.authenticate (ex_env 1000) ex_db (Some "Bearer tok-1") =
    Auth.next (Some {| Auth.req_id := "u-1"; Auth.req_email := "ann@example.org";
                       Auth.req_username := "ann" |}) /\
  Auth.authenticate (ex_env 1001) ex_db (Some "Bearer tok-1") =
    Auth.next_error (Auth.createError "Invalid or expired token" 401).
Proof.
  split; [|reflexivity].
  apply authenticate_lets_in_exactly_live_sessions.
  exists "tok-1", "secret",
    {| Auth.userId := "u-1"; Auth.expiresAt := 1000; Auth.session_isActive := true |},
    ex_account.
  repeat split; try reflexivity; discriminate.
Defined.

(** X17. Without a configured JWT_SECRET nobody is let in: a request
    without a Bearer header is answered 401, and every request with one
    is answered 500, whatever the token and the sessions. *)
Theorem missing_secret_lets_nobody_in env db authorization :
  Auth.configured (Auth.JWT_SECRET env) = None ->
  exists e,
    Auth.authenticate env db authorization = Auth.next_error e /\
    Auth.statusCode e =
      match authorization with
      | Some h => if String.prefix "Bearer " h then 500%Z else 401%Z
      | None => 401%Z
      end.
Proof.
  intros Hs. unfold Auth.authenticate. rewrite Hs.
  destruct authorization as [h|]; [|eexists; split; reflexivity].
  destruct (String.prefix "Bearer " h); eexists; split; reflexivity.
Qed.

(** The theorem at an empty secret. *)
Lemma missing_secret_lets_nobody_in_witness :
  Auth.authenticate
    {| Auth.JWT_SECRET := Some ""; Auth.Date_now := 0;
       Auth.jwt_verify := fun _ _ => true |}
    ex_db (Some "Bearer tok-1") =
    Auth.next_error (Auth.createError "JWT secret not configured" 500).
Proof.
  destruct (missing_secret_lets_nobody_in
              {| Auth.JWT_SECRET := Some ""; Auth.Date_now := 0;
                 Auth.jwt_verify := fun _ _ => true |}
              ex_db (Some "Bearer tok-1")) as (e & He & _).
  - reflexivity.
  - reflexivity.
Defined.

(** X18. Logging out ends this session and no other. When a request is
    let in (and no session has the empty token), POST /logout answers 200;
    afterwards the same Authorization header is refused with 401 "Invalid
    or expired token", although the token still verifies and has not
    expired, and every other header is treated as before: the sessions of
    the same user on other devices stay signed in. *)
Theorem logout_ends_this_session_only env db authorization ru :
  Auth.sessions db !! "" = None ->
  Auth.authenticate env db authorization = Auth.next ru ->
  let db' := fst (Auth.post_logout env db authorization) in
  snd (Auth.post_logout env db authorization) =
    {| Auth.status := 200; Auth.body_message := "Logout successful" |} /\
  Auth.authenticate env db' authorization =
    Auth.next_error (Auth.createError "Invalid or expired token" 401) /\
  Auth.users db' = Auth.users db /\
  forall other, other <> authorization ->
    Auth.authenticate env db' other = Auth.authenticate env db other.
Proof.
  intros Hempty Hin.
  destruct (authenticate_admits _ _ _ _ Hin)
    as (tok & secret & session & u & -> & Hs & Hne & Hv & Hsess & Hu & Ha & Hexp & Hact & ->).
  assert (Htok : tok <> "") by (intros ->; congruence).
  unfold Auth.post_logout. rewrite Hin. cbn [fmap option_fmap option_map].
  rewrite substring7_bearer.
  destruct (String.eqb_spec tok ""); [contradiction|]. cbn [fst snd].
  split; [reflexivity|]. split; [|split; [reflexivity|]].
  - rewrite authenticate_unfold. unfold Auth.configured. rewrite Hs.
    destruct (String.eqb_spec secret ""); [contradiction|].
    rewrite Hv. cbn [negb]. unfold Auth.findSession, Auth.deactivate.
    cbn [Auth.sessions Auth.users].
    rewrite lookup_alter, Hsess. simpl.
    destruct (decide (tok = tok)); [|contradiction]. simpl.
    rewrite Hu. reflexivity.
  - intros [h2|] Hother; [|reflexivity].
    destruct (String.prefix "Bearer " h2) eqn:Hp.
    + rewrite (bearer_split h2 Hp) in Hother |- *.
      assert (Hne2 : Auth.substring7 h2 <> tok) by congruence.
      rewrite !authenticate_unfold. unfold Auth.findSession, Auth.deactivate.
      cbn [Auth.sessions Auth.users].
      rewrite lookup_alter_ne by congruence. reflexivity.
    + apply authenticate_no_bearer. exact Hp.
Qed.

(** The theorem at the first of the two sessions of the example: after
    its logout the first token is refused and the second is let in. *)
Lemma logout_ends_this_session_only_witness :
  let db' := fst (Auth.post_logout (ex_env 500) ex_db (Some "Bearer tok-1")) in
  Auth.authenticate (ex_env 500) db' (Some "Bearer tok-1") =
    Auth.next_error (Auth.createError "Invalid or expired token" 401) /\
  Auth.authenticate (ex_env 500) db' (Some "Bearer tok-2") =
    Auth.authenticate (ex_env 500) ex_db (Some "Bearer tok-2") /\
  Auth.authenticate (ex_env 500) ex_db (Some "Bearer tok-2") =
    Auth.next (Some {| Auth.req_id := "u-1"; Auth.req_email := "ann@example.org";
                       Auth.req_username := "ann" |}).
Proof.
  destruct (logout_ends_this_session_only (ex_env 500) ex_db (Some "Bearer tok-1")
              (Some {| Auth.req_id := "u-1"; Auth.req_email := "ann@example.org";
                       Auth.req_username := "ann" |}))
    as (_ & Hout & _ & Hother).
  - reflexivity.
  - reflexivity.
  - split; [exact Hout|]. split; [|reflexivity].
    apply Hother. discriminate.
Defined.

(** X19. Roles are not checked. After [authenticate] has let a request
    in, [authorize(...roles)] lets it through with the same [req.user],
    whatever roles it is given. *)
Theorem authorize_lets_every_user_through env db authorization ru roles :
  Auth.authenticate env db authorization = Auth.next ru ->
  Auth.authorize roles ru = Auth.next ru.
Proof.
  intros Hin.
  destruct (authenticate_admits _ _ _ _ Hin)
    as (tok & secret & session & u & _ & _ & _ & _ & _ & _ & _ & _ & _ & ->).
  reflexivity.
Qed.

(** The theorem at the example, with a role that no user has. *)
Lemma authorize_lets_every_user_through_witness :
  Auth.authorize ["admin"]
    (Some {| Auth.req_id := "u-1"; Auth.req_email := "ann@example.org";
             Auth.req_username := "ann" |}) =
  Auth.next (Some {| Auth.req_id := "u-1"; Auth.req_email := "ann@example.org";
                     Auth.req_username := "ann" |}).
Proof.
  apply (authorize_lets_every_user_through (ex_env 500) ex_db (Some "Bearer tok-1")).
  reflexivity.
Defined.

(** ** The studio page *)











